(** * tutor/commands/compose.py: job runner, service addressing, volumes

    A shallow embedding of the command layer of [tutor/commands/compose.py].
    Every command is a computation over a trace of observable events (the
    messages printed to the user and the calls handed to the orchestration
    engine) that either returns or raises.  What the module takes from
    outside (the terminal, the file system, the configuration loader, the
    script helpers, the engine's exit status) is gathered in a [World]; the
    bind-mount helpers and the invoker are modelled after the spec. *)

From Stdlib Require Import Ascii.
From stdpp Require Import base option list strings gmap pretty.

(** ** Strings as Python uses them *)

Module Str.

(** The line feed, written ["\n"] in the source. *)
Definition nl : string := String (Ascii.ascii_of_nat 10) EmptyString.

(** [c in s] for a one-character [c]. *)
Fixpoint has_char (c : ascii) (s : string) : bool :=
  match s with
  | EmptyString => false
  | String a s' => if Ascii.eqb a c then true else has_char c s'
  end.

(** [s.replace(c, by)] for a one-character [c]. *)
Fixpoint replace_char (c : ascii) (by_ : string) (s : string) : string :=
  match s with
  | EmptyString => EmptyString
  | String a s' =>
      if Ascii.eqb a c then by_ +:+ replace_char c by_ s'
      else String a (replace_char c by_ s')
  end.

(** [hay.startswith(p)]. *)
Fixpoint startswith (p hay : string) : bool :=
  match p, hay with
  | EmptyString, _ => true
  | String a p', String b hay' => if Ascii.eqb a b then startswith p' hay' else false
  | String _ _, EmptyString => false
  end.

(** [needle in hay] on strings: [needle] occurs as a contiguous run. *)
Fixpoint contains (needle hay : string) : bool :=
  if startswith needle hay then true
  else match hay with
       | EmptyString => false
       | String _ hay' => contains needle hay'
       end.

(** [s[n:]]. *)
Fixpoint drop (n : nat) (s : string) : string :=
  match n, s with
  | O, _ => s
  | S n', String _ s' => drop n' s'
  | S _, EmptyString => EmptyString
  end.

End Str.

(** ** Data model *)

(** The body of one entry of a compose file's [services] mapping; the
    command layer never looks inside it. *)
Inductive ServiceSpec : Type :=
  | service_spec (body : string).

(** The configuration is a dictionary; the commands read two flags of it. *)
Abbreviation Config := (gmap string bool).

(** The parsed [services] mapping of a compose file. *)
Abbreviation Services := (gmap string ServiceSpec).

(** What a command can raise. *)
Inductive Exn : Type :=
  | TutorError (msg : string)
  | KeyError (key : string)
  | DefinitionParseError (path : string)
  | UsageError (msg : string)
  | EngineInvocationError (status : nat).

(** What a command does that can be seen from outside. *)
Inductive Event : Type :=
  | EchoAlert (msg : string)
  | EchoInfo (msg : string)
  | EngineCall (root : string) (config : Config) (tokens : list string)
  | EngineExit (status : nat).

Abbreviation Trace := (list Event).

(** The collaborators of the module, defined outside it and taken as given:
    [utils.is_a_tty], [os.path.exists], [tutor_env.pathjoin], the [services]
    mapping that [serialize.load] finds in the file at a path (or nothing
    when the file cannot be read or parsed), [tutor_config.load],
    [scripts.create_user_command], and the jobs of [scripts.set_theme].
    [engine_status] is the exit status of the engine on a call, which may
    depend on everything that happened before (the call itself is the last
    event of the trace it is given). *)
Record World : Type := {
  is_a_tty : bool;
  os_path_exists : string → bool;
  pathjoin : string → list string → string;
  load_services : string → option Services;
  tutor_config_load : string → Config;
  engine_status : Trace → nat;
  create_user_command : bool → bool → string → string → option string → string;
  set_theme_jobs : string → string → list (string * string);
}.

(** ** The command monad: a trace, and a result or an exception *)

Definition M (A : Type) : Type := Trace → Trace * (Exn + A).

#[global] Instance M_ret : MRet M := λ A x tr, (tr, inr x).

#[global] Instance M_bind : MBind M := λ A B f m tr,
  match m tr with
  | (tr', inl e) => (tr', inl e)
  | (tr', inr x) => f x tr'
  end.

Definition raise {A : Type} (e : Exn) : M A := λ tr, (tr, inl e).

Definition emit (ev : Event) : M unit := λ tr, (tr ++ [ev], inr ()).

(** A computation without effects other than raising. *)
Definition lift {A : Type} (r : Exn + A) : M A := λ tr, (tr, r).

(** Number of calls handed to the engine in a trace. *)
Definition is_engine_call (ev : Event) : bool :=
  match ev with
  | EngineCall _ _ _ => true
  | _ => false
  end.

Definition engine_calls (tr : Trace) : nat :=
  length (filter (λ ev, is_engine_call ev = true) tr).

(** The token sequences handed to the engine, oldest first. *)
Definition engine_tokens (tr : Trace) : list (list string) :=
  omap (λ ev, match ev with EngineCall _ _ tokens => Some tokens | _ => None end) tr.

(** The alerts shown to the user, oldest first. *)
Definition alerts (tr : Trace) : list string :=
  omap (λ ev, match ev with EchoAlert msg => Some msg | _ => None end) tr.

(** ** The commands *)

Record ScriptRunner : Type := {
  runner_root : string;
  runner_config : Config;
}.

Section Commands.

Variable w : World.

(** Modelled from the spec: [context.docker_compose], the orchestration
    invoker, is defined outside this module.  Per section 4.4 it renders
    the tokens into one external process call, blocks until the process
    exits, and surfaces a non-zero exit status as a fatal error. *)
Definition docker_compose (root : string) (config : Config)
    (tokens : list string) : M unit :=
  λ tr,
    let called := tr ++ [EngineCall root config tokens] in
    let status := engine_status w called in
    (called ++ [EngineExit status],
     if decide (status = 0) then inr () else inl (EngineInvocationError status)).

(** [fmt.echo_alert]. *)
Definition echo_alert (msg : string) : M unit := emit (EchoAlert msg).

(** [serialize.load(open(path).read())["services"]]: fatal when the file
    cannot be read or parsed. *)
Definition read_services (path : string) : M Services :=
  match load_services w path with
  | Some services => mret services
  | None => raise (DefinitionParseError path)
  end.

(** [config[key]]. *)
Definition getitem (config : Config) (key : string) : Exn + bool :=
  match config !! key with
  | Some v => inr v
  | None => inl (KeyError key)
  end.

(** The text of the alert of the legacy branch of [run_job]. *)
Definition deprecation_message (job_service_name jobs_path command : string) : string :=
  "The '" +:+ job_service_name +:+ "' service does not exist in " +:+ jobs_path +:+ ". "
  +:+ "This might be caused by an older plugin. Tutor switched to a job "
  +:+ "runner model for running one-time commands, such as database"
  +:+ " initialisation. For the record, this is the command that we are "
  +:+ "running:" +:+ Str.nl
  +:+ Str.nl
  +:+ "    " +:+ Str.replace_char (Ascii.ascii_of_nat 10) (Str.nl +:+ "    ") command +:+ Str.nl
  +:+ Str.nl
  +:+ "Old-style job running will be deprecated soon. Please inform "
  +:+ "your plugin maintainer!".

(** [ScriptRunner.run_job]. *)
Definition run_job (self : ScriptRunner) (service command : string) : M unit :=
  let jobs_path := pathjoin w (runner_root self) ["local"; "docker-compose.jobs.yml"] in
  let job_service_name := service +:+ "-job" in
  let opts := if is_a_tty w then [] else ["-T"] in
  services ← read_services jobs_path;
  if decide (is_Some (services !! job_service_name)) then
    docker_compose (runner_root self) (runner_config self)
      (["-f"; jobs_path; "run"] ++ opts
         ++ ["--rm"; job_service_name; "sh"; "-e"; "-c"; command])
  else
    echo_alert (deprecation_message job_service_name jobs_path command);;
    docker_compose (runner_root self) (runner_config self)
      (["run"] ++ opts ++ ["--rm"; service; "sh"; "-e"; "-c"; command]).

(** [start]. *)
Definition start (root : string) (detach : bool) (services : list string) : M unit :=
  let command := ["up"; "--remove-orphans"] in
  let command := if detach then command ++ ["-d"] else command in
  let config := tutor_config_load w root in
  docker_compose root config (command ++ services).

(** [stop]. *)
Definition stop (root : string) (services : list string) : M unit :=
  let config := tutor_config_load w root in
  docker_compose root config ("stop" :: services).

(** [reboot]: the two callbacks, one after the other. *)
Definition reboot (root : string) (detach : bool) (services : list string) : M unit :=
  stop root services;;
  start root detach services.

(** The body of the [for] loop of [restart], on the accumulator
    [command]. *)
Definition restart_service (config : Config) (command : list string)
    (service : string) : Exn + list string :=
  if decide (service = "openedx") then
    match getitem config "RUN_LMS" with
    | inl e => inl e
    | inr run_lms =>
        let command := if run_lms then command ++ ["lms"; "lms-worker"] else command in
        match getitem config "RUN_CMS" with
        | inl e => inl e
        | inr run_cms =>
            inr (if run_cms then command ++ ["cms"; "cms-worker"] else command)
        end
    end
  else inr (command ++ [service]).

Fixpoint restart_loop (config : Config) (command : list string)
    (services : list string) : Exn + list string :=
  match services with
  | [] => inr command
  | service :: rest =>
      match restart_service config command service with
      | inl e => inl e
      | inr command => restart_loop config command rest
      end
  end.

(** [restart]. *)
Definition restart (root : string) (services : list string) : M unit :=
  let config := tutor_config_load w root in
  let command := ["restart"] in
  command ←
    lift (if decide ("all" ∈ services) then inr command
          else restart_loop config command services);
  docker_compose root config command.

(** [createuser]. *)
Definition createuser (root : string) (superuser staff : bool)
    (password : option string) (name email : string) : M unit :=
  let config := tutor_config_load w root in
  let runner := {| runner_root := root; runner_config := config |} in
  let command := create_user_command w superuser staff name email password in
  run_job runner "lms" command.

(** Jobs handed to the runner one after the other. *)
Fixpoint run_jobs (runner : ScriptRunner) (jobs : list (string * string)) : M unit :=
  match jobs with
  | [] => mret ()
  | (service, command) :: rest => run_job runner service command;; run_jobs runner rest
  end.

(** Modelled from the spec: [scripts.set_theme] is defined outside this
    module.  Per section 1 the theme logic is a downstream consumer of the
    job runner, so it is modelled by the jobs it hands to the runner, which
    the world gives as [set_theme_jobs]. *)
Definition set_theme (theme_name domain_name : string) (runner : ScriptRunner) : M unit :=
  run_jobs runner (set_theme_jobs w theme_name domain_name).

Fixpoint settheme_loop (theme_name : string) (runner : ScriptRunner)
    (domain_names : list string) : M unit :=
  match domain_names with
  | [] => mret ()
  | domain_name :: rest =>
      set_theme theme_name domain_name runner;;
      settheme_loop theme_name runner rest
  end.

(** [settheme]. *)
Definition settheme (root : string) (theme_name : string)
    (domain_names : list string) : M unit :=
  let config := tutor_config_load w root in
  let runner := {| runner_root := root; runner_config := config |} in
  settheme_loop theme_name runner domain_names.

(** *** Volumes *)

Definition is_volume_flag (token : string) : bool :=
  bool_decide (token = "-v") || bool_decide (token = "--volume").

(** Modelled from the spec: [bindmounts.parse_volumes] is defined outside
    this module.  Per section 4.1 it splits the argument list in two ordered
    sequences: the volume directive values, which are the tokens that
    follow a volume flag ([--volume X], [-v X]) or are glued to the long
    one ([--volume=X]), and all remaining tokens in their original order,
    without the flags and their values.  A flag that no token follows has no
    value, and the split fails. *)
Fixpoint parse_volumes (args : list string) : option (list string * list string) :=
  match args with
  | [] => Some ([], [])
  | token :: rest =>
      if is_volume_flag token then
        match rest with
        | [] => None
        | value :: rest' =>
            '(volumes, others) ← parse_volumes rest';
            Some (value :: volumes, others)
        end
      else if Str.startswith "--volume=" token then
        '(volumes, others) ← parse_volumes rest;
        Some (Str.drop 9 token :: volumes, others)
      else
        '(volumes, others) ← parse_volumes rest;
        Some (volumes, token :: others)
  end.

(** Modelled from the spec: [bindmounts.get_path] is defined outside this
    module.  Per sections 4.1 and 6 the host path of the named bind-mount
    [name] is [<root>/volumes/<name>]. *)
Definition get_path (root name : string) : string :=
  root +:+ "/volumes/" +:+ name.

(** [bindmount_command.name]. *)
Definition bindmount_command_name : string := "bindmount".

(** The body of the [for] loop of [dc_command], up to the accumulation:
    what one directive becomes. *)
Definition resolve_volume (root volume_arg : string) : Exn + string :=
  if negb (Str.has_char ":" volume_arg) then
    let host_bind_path := get_path root volume_arg in
    if negb (os_path_exists w host_bind_path) then
      inl (TutorError
        ("Bind-mount volume directory " +:+ host_bind_path
         +:+ " does not exist. It must first be created"
         +:+ " with the '" +:+ bindmount_command_name +:+ "' command."))
    else inr (host_bind_path +:+ ":" +:+ volume_arg)
  else inr volume_arg.

Fixpoint volume_loop (root : string) (volume_args : list string)
    (volumes : list string) : Exn + list string :=
  match volumes with
  | [] => inr volume_args
  | volume_arg :: rest =>
      match resolve_volume root volume_arg with
      | inl e => inl e
      | inr volume_arg => volume_loop root (volume_args ++ ["--volume"; volume_arg]) rest
      end
  end.

(** [dc_command]. *)
Definition dc_command (root : string) (command : string) (args : list string) : M unit :=
  let config := tutor_config_load w root in
  '(volumes, non_volume_args) ←
    lift (from_option inr (inl (UsageError "Option requires an argument."))
            (parse_volumes args));
  volume_args ← lift (volume_loop root [] volumes);
  docker_compose root config (command :: volume_args ++ non_volume_args).

(** [run]. *)
Definition run (root : string) (args : list string) : M unit :=
  let extra_args := ["--rm"] in
  let extra_args := if negb (is_a_tty w) then extra_args ++ ["-T"] else extra_args in
  dc_command root "run" (extra_args ++ args).

(** [execute], the [exec] command. *)
Definition execute (root : string) (args : list string) : M unit :=
  dc_command root "exec" args.

(** [logs]. *)
Definition logs (root : string) (follow : bool) (tail : option Z)
    (service : list string) : M unit :=
  let args := [] in
  let args := if follow then args ++ ["--follow"] else args in
  let args := match tail with
              | Some n => args ++ ["--tail"; pretty n]
              | None => args
              end in
  let args := args ++ service in
  dc_command root "logs" args.

(** *** The commands a user can issue

    [init], [importdemocourse] and [bindmount] only hand over to helpers
    defined outside this module and are left out. *)
Inductive Command : Type :=
  | Start (detach : bool) (services : list string)
  | Stop (services : list string)
  | Restart (services : list string)
  | Reboot (detach : bool) (services : list string)
  | Createuser (superuser staff : bool) (password : option string) (name email : string)
  | Settheme (theme_name : string) (domain_names : list string)
  | Dc (command : string) (args : list string)
  | Run (args : list string)
  | Exec (args : list string)
  | Logs (follow : bool) (tail : option Z) (service : list string).

Definition issue (root : string) (c : Command) : M unit :=
  match c with
  | Start detach services => start root detach services
  | Stop services => stop root services
  | Restart services => restart root services
  | Reboot detach services => reboot root detach services
  | Createuser superuser staff password name email =>
      createuser root superuser staff password name email
  | Settheme theme_name domain_names => settheme root theme_name domain_names
  | Dc command args => dc_command root command args
  | Run args => run root args
  | Exec args => execute root args
  | Logs follow tail service => logs root follow tail service
  end.

End Commands.

(** ** The spec's words, to compare the code with *)

(** What one requested name of [restart] stands for (section 4.3): the
    group name [openedx] is the main process and the worker of each enabled
    subsystem, main before worker; any other name is itself. *)
Definition spec_expand (run_lms run_cms : bool) (service : string) : list string :=
  if decide (service = "openedx") then
    (if run_lms then ["lms"; "lms-worker"] else [])
      ++ (if run_cms then ["cms"; "cms-worker"] else [])
  else [service].

(** The [--volume] flag/value pairs of a list of directives. *)
Definition volume_pairs (volumes : list string) : list string :=
  concat (map (λ v, ["--volume"; v]) volumes).

(** The number of engine calls of a command that completes: two for
    [reboot], one per job for [settheme], one for the others. *)
Definition expected_calls (w : World) (c : Command) : nat :=
  match c with
  | Reboot _ _ => 2
  | Settheme theme_name domain_names =>
      length (concat (map (set_theme_jobs w theme_name) domain_names))
  | _ => 1
  end.

(** ** Lines and numbers, to state what the commands assemble *)




(** A decimal digit. *)
Definition is_digit (a : ascii) : bool :=
  Nat.leb 48 (nat_of_ascii a) && Nat.leb (nat_of_ascii a) 57.

(** A text whose first character is a decimal digit. *)
Definition digit_head (s : string) : bool :=
  match s with
  | String a _ => is_digit a
  | EmptyString => false
  end.

(** A token of the argument list that is no volume flag and carries no
    directive. *)
Definition plain_token (token : string) : Prop :=
  is_volume_flag token = false ∧ Str.startswith "--volume=" token = false.

(** The commands that go through the job runner. *)
Definition runs_jobs (c : Command) : bool :=
  match c with
  | Createuser _ _ _ _ _ | Settheme _ _ => true
  | _ => false
  end.

(** ** A concrete world, for examples *)

Module Demo.

Definition root : string := "/srv/tutor".

Definition config : Config := {[ "RUN_LMS" := true; "RUN_CMS" := false ]}.

Definition services : Services :=
  {[ "lms-job" := service_spec "image: openedx"; "mysql-job" := service_spec "image: mysql" ]}.

(** Non-interactive or interactive; only [/srv/tutor/volumes/data] is on
    disk; only the job definition under [root] can be read; the engine
    always exits with status 0. *)
Definition world (tty : bool) : World := {|
  is_a_tty := tty;
  os_path_exists := λ path, bool_decide (path = "/srv/tutor/volumes/data");
  pathjoin := λ base parts, foldl (λ acc part, acc +:+ "/" +:+ part) base parts;
  load_services := λ path,
    if decide (path = "/srv/tutor/local/docker-compose.jobs.yml") then Some services else None;
  tutor_config_load := λ _, config;
  engine_status := λ _, 0;
  create_user_command := λ _ _ name email _, "./manage.py lms manage_user " +:+ name +:+ " " +:+ email;
  set_theme_jobs := λ theme domain, [("lms", "./manage.py lms settheme " +:+ theme +:+ " " +:+ domain)];
|}.

Definition runner : ScriptRunner := {| runner_root := root; runner_config := config |}.

(** A two-line command. *)
Definition two_lines : string := "echo a" +:+ Str.nl +:+ "echo b".

(** The interactive world, with another configuration on disk. *)
Definition world_with (cfg : Config) : World := {|
  is_a_tty := true;
  os_path_exists := os_path_exists (world true);
  pathjoin := pathjoin (world true);
  load_services := load_services (world true);
  tutor_config_load := λ _, cfg;
  engine_status := engine_status (world true);
  create_user_command := create_user_command (world true);
  set_theme_jobs := set_theme_jobs (world true);
|}.

End Demo.

(** ** Lemmas on strings *)

Lemma length_append (s t : string) :
  String.length (s +:+ t) = String.length s + String.length t.
Proof. induction s as [|a s IH]; simpl; [done | by rewrite IH]. Qed.

Lemma append_job_ne (s : string) : s +:+ "-job" ≠ s.
Proof.
  intros H. apply (f_equal String.length) in H.
  rewrite length_append in H. simpl in H. lia.
Qed.

Lemma startswith_append (x post : string) : Str.startswith x (x +:+ post) = true.
Proof.
  induction x as [|a x IH]; simpl; [by destruct post |].
  by rewrite Ascii.eqb_refl.
Qed.

Lemma contains_here (x post : string) : Str.contains x (x +:+ post) = true.
Proof.
  destruct (x +:+ post) eqn:E; simpl; rewrite <- E, startswith_append; done.
Qed.

Lemma contains_skip (x pre rest : string) :
  Str.contains x rest = true → Str.contains x (pre +:+ rest) = true.
Proof.
  intros H. induction pre as [|a pre IH]; simpl; [done |].
  rewrite IH. by destruct (Str.startswith x (String a (pre +:+ rest))).
Qed.

Lemma replace_char_absent (c : ascii) (by_ s : string) :
  Str.has_char c s = false → Str.replace_char c by_ s = s.
Proof.
  induction s as [|a s IH]; simpl; [done |].
  destruct (Ascii.eqb a c); [done |]. intros H. by rewrite IH.
Qed.

(** The alert quotes the command with its continuation lines indented. *)
Lemma deprecation_message_quotes (job_service_name jobs_path command : string) :
  Str.contains (Str.replace_char (Ascii.ascii_of_nat 10) (Str.nl +:+ "    ") command)
    (deprecation_message job_service_name jobs_path command) = true.
Proof.
  unfold deprecation_message.
  repeat first [ apply contains_here | apply contains_skip ].
Qed.

(** ** Lemmas on traces *)

Lemma engine_calls_app (tr1 tr2 : Trace) :
  engine_calls (tr1 ++ tr2) = engine_calls tr1 + engine_calls tr2.
Proof. unfold engine_calls. by rewrite filter_app, length_app. Qed.

Lemma engine_tokens_app (tr1 tr2 : Trace) :
  engine_tokens (tr1 ++ tr2) = engine_tokens tr1 ++ engine_tokens tr2.
Proof. unfold engine_tokens. apply omap_app. Qed.

Lemma alerts_app (tr1 tr2 : Trace) : alerts (tr1 ++ tr2) = alerts tr1 ++ alerts tr2.
Proof. unfold alerts. apply omap_app. Qed.

(** One call to the invoker: the call, then its exit, and nothing else. *)
Lemma docker_compose_run (w : World) (root : string) (config : Config)
    (tokens : list string) (tr : Trace) :
  docker_compose w root config tokens tr =
    (tr ++ [EngineCall root config tokens;
            EngineExit (engine_status w (tr ++ [EngineCall root config tokens]))],
     if decide (engine_status w (tr ++ [EngineCall root config tokens]) = 0)
     then inr () else inl (EngineInvocationError
                             (engine_status w (tr ++ [EngineCall root config tokens])))).
Proof. unfold docker_compose. cbv zeta. by rewrite <- (assoc_L (++)). Qed.

Lemma docker_compose_calls (w : World) (root : string) (config : Config)
    (tokens : list string) (tr : Trace) :
  engine_calls (docker_compose w root config tokens tr).1 = engine_calls tr + 1.
Proof. rewrite docker_compose_run. simpl. by rewrite engine_calls_app. Qed.

Lemma docker_compose_tokens (w : World) (root : string) (config : Config)
    (tokens : list string) (tr : Trace) :
  engine_tokens (docker_compose w root config tokens tr).1 = engine_tokens tr ++ [tokens].
Proof. rewrite docker_compose_run. simpl. by rewrite engine_tokens_app. Qed.

Lemma docker_compose_alerts (w : World) (root : string) (config : Config)
    (tokens : list string) (tr : Trace) :
  alerts (docker_compose w root config tokens tr).1 = alerts tr.
Proof. rewrite docker_compose_run. simpl. rewrite alerts_app. simpl. by rewrite (right_id_L [] (++)). Qed.

(** ** The job runner *)

(** The two branches of [run_job], once the job definition is parsed. *)
Lemma run_job_present (w : World) (self : ScriptRunner) (s cmd : string)
    (services : Services) :
  load_services w (pathjoin w (runner_root self) ["local"; "docker-compose.jobs.yml"])
    = Some services →
  is_Some (services !! (s +:+ "-job")) →
  run_job w self s cmd =
    docker_compose w (runner_root self) (runner_config self)
      (["-f"; pathjoin w (runner_root self) ["local"; "docker-compose.jobs.yml"]; "run"]
         ++ (if is_a_tty w then [] else ["-T"])
         ++ ["--rm"; s +:+ "-job"; "sh"; "-e"; "-c"; cmd]).
Proof.
  intros Hload Hin. unfold run_job, read_services. rewrite Hload.
  unfold mbind, M_bind, mret, M_ret. cbv zeta.
  by rewrite decide_True.
Qed.

Lemma run_job_absent (w : World) (self : ScriptRunner) (s cmd : string)
    (services : Services) (tr : Trace) :
  load_services w (pathjoin w (runner_root self) ["local"; "docker-compose.jobs.yml"])
    = Some services →
  services !! (s +:+ "-job") = None →
  run_job w self s cmd tr =
    docker_compose w (runner_root self) (runner_config self)
      (["run"] ++ (if is_a_tty w then [] else ["-T"])
         ++ ["--rm"; s; "sh"; "-e"; "-c"; cmd])
      (tr ++ [EchoAlert
                (deprecation_message (s +:+ "-job")
                   (pathjoin w (runner_root self) ["local"; "docker-compose.jobs.yml"]) cmd)]).
Proof.
  intros Hload Hout. unfold run_job, read_services. rewrite Hload.
  unfold mbind, M_bind, mret, M_ret. cbv zeta.
  rewrite decide_False; [done |]. rewrite Hout. by intros [? ?].
Qed.

(** C1.  When the job definition has a service [s + "-job"], [run_job s cmd]
    hands the engine exactly one call: the job-compose file selected with
    [-f], then [run], the no-TTY flag when the terminal is not interactive,
    [--rm], the service [s + "-job"], and [cmd] through [sh -e -c].  The
    targeted service is never [s] itself, and no alert is shown. *)
Theorem run_job_uses_job_service (w : World) (self : ScriptRunner) (s cmd : string)
    (services : Services) (tr : Trace) :
  let jobs_path := pathjoin w (runner_root self) ["local"; "docker-compose.jobs.yml"] in
  let tokens := ["-f"; jobs_path; "run"] ++ (if is_a_tty w then [] else ["-T"])
                  ++ ["--rm"; s +:+ "-job"; "sh"; "-e"; "-c"; cmd] in
  let call := EngineCall (runner_root self) (runner_config self) tokens in
  let status := engine_status w (tr ++ [call]) in
  load_services w jobs_path = Some services →
  is_Some (services !! (s +:+ "-job")) →
  run_job w self s cmd tr =
    (tr ++ [call; EngineExit status],
     if decide (status = 0) then inr () else inl (EngineInvocationError status))
  ∧ engine_calls (run_job w self s cmd tr).1 = engine_calls tr + 1
  ∧ engine_tokens (run_job w self s cmd tr).1 = engine_tokens tr ++ [tokens]
  ∧ alerts (run_job w self s cmd tr).1 = alerts tr
  ∧ s +:+ "-job" ≠ s.
Proof.
  intros jobs_path tokens call status Hload Hin.
  rewrite (run_job_present w self s cmd services Hload Hin).
  split_and!.
  - apply docker_compose_run.
  - apply docker_compose_calls.
  - apply docker_compose_tokens.
  - apply docker_compose_alerts.
  - apply append_job_ne.
Qed.

Lemma run_job_uses_job_service_witness :
  load_services (Demo.world false) "/srv/tutor/local/docker-compose.jobs.yml"
    = Some Demo.services
  ∧ is_Some (Demo.services !! "lms-job")
  ∧ engine_tokens (run_job (Demo.world false) Demo.runner "lms" "ls" []).1 =
      [["-f"; "/srv/tutor/local/docker-compose.jobs.yml"; "run"; "-T"; "--rm";
        "lms-job"; "sh"; "-e"; "-c"; "ls"]].
Proof.
  assert (H1 : load_services (Demo.world false) "/srv/tutor/local/docker-compose.jobs.yml"
               = Some Demo.services) by reflexivity.
  assert (H2 : is_Some (Demo.services !! "lms-job")) by (vm_compute; eauto).
  split_and!; [exact H1 | exact H2 |].
  exact (proj1 (proj2 (proj2
    (run_job_uses_job_service (Demo.world false) Demo.runner "lms" "ls"
       Demo.services [] H1 H2)))).
Defined.

(** C2, as stated, fails: the alert quotes a command of several lines with
    its continuation lines indented, so the command itself does not occur in
    it. *)
Lemma run_job_alert_not_verbatim :
  load_services (Demo.world true) "/srv/tutor/local/docker-compose.jobs.yml"
    = Some Demo.services
  ∧ Demo.services !! "redis-job" = None
  ∧ ∃ msg, alerts (run_job (Demo.world true) Demo.runner "redis" Demo.two_lines []).1 = [msg]
           ∧ Str.contains Demo.two_lines msg = false.
Proof.
  split_and!; [reflexivity | by vm_compute |].
  eexists. split; [vm_compute; reflexivity | by vm_compute].
Qed.

(** C2, amended.  When the job definition has no service [s + "-job"],
    [run_job s cmd] shows exactly one alert and then hands the engine exactly
    one call: [run], the no-TTY flag when the terminal is not interactive,
    [--rm], the service [s] itself, and [cmd] through [sh -e -c], with no
    [-f] selection in front.  The alert contains [cmd] with four spaces
    after each of its line feeds, hence [cmd] itself when it is one line. *)
Theorem run_job_falls_back (w : World) (self : ScriptRunner) (s cmd : string)
    (services : Services) (tr : Trace) :
  let jobs_path := pathjoin w (runner_root self) ["local"; "docker-compose.jobs.yml"] in
  let msg := deprecation_message (s +:+ "-job") jobs_path cmd in
  let tokens := ["run"] ++ (if is_a_tty w then [] else ["-T"])
                  ++ ["--rm"; s; "sh"; "-e"; "-c"; cmd] in
  let call := EngineCall (runner_root self) (runner_config self) tokens in
  let status := engine_status w (tr ++ [EchoAlert msg; call]) in
  load_services w jobs_path = Some services →
  services !! (s +:+ "-job") = None →
  run_job w self s cmd tr =
    (tr ++ [EchoAlert msg; call; EngineExit status],
     if decide (status = 0) then inr () else inl (EngineInvocationError status))
  ∧ alerts (run_job w self s cmd tr).1 = alerts tr ++ [msg]
  ∧ engine_calls (run_job w self s cmd tr).1 = engine_calls tr + 1
  ∧ engine_tokens (run_job w self s cmd tr).1 = engine_tokens tr ++ [tokens]
  ∧ Str.contains
      (Str.replace_char (Ascii.ascii_of_nat 10) (Str.nl +:+ "    ") cmd) msg = true
  ∧ (Str.has_char (Ascii.ascii_of_nat 10) cmd = false → Str.contains cmd msg = true).
Proof.
  intros jobs_path msg tokens call status Hload Hout.
  rewrite (run_job_absent w self s cmd services tr Hload Hout).
  fold jobs_path. fold msg.
  split_and!.
  - rewrite docker_compose_run. fold tokens. fold call.
    rewrite <- !(assoc_L (++)). simpl. done.
  - rewrite docker_compose_alerts, alerts_app. done.
  - rewrite docker_compose_calls, engine_calls_app. simpl. unfold engine_calls at 2.
    simpl. lia.
  - rewrite docker_compose_tokens, engine_tokens_app. simpl.
    by rewrite (right_id_L [] (++)).
  - apply deprecation_message_quotes.
  - intros Hone. rewrite <- (replace_char_absent _ (Str.nl +:+ "    ") cmd Hone) at 1.
    apply deprecation_message_quotes.
Qed.

Lemma run_job_falls_back_witness :
  load_services (Demo.world false) "/srv/tutor/local/docker-compose.jobs.yml"
    = Some Demo.services
  ∧ Demo.services !! "redis-job" = None
  ∧ engine_tokens (run_job (Demo.world false) Demo.runner "redis" "ls" []).1 =
      [["run"; "-T"; "--rm"; "redis"; "sh"; "-e"; "-c"; "ls"]].
Proof.
  assert (H1 : load_services (Demo.world false) "/srv/tutor/local/docker-compose.jobs.yml"
               = Some Demo.services) by reflexivity.
  assert (H2 : Demo.services !! "redis-job" = None) by (by vm_compute).
  split_and!; [exact H1 | exact H2 |].
  exact (proj1 (proj2 (proj2 (proj2
    (run_job_falls_back (Demo.world false) Demo.runner "redis" "ls"
       Demo.services [] H1 H2))))).
Defined.

(** ** The passthrough commands *)

Lemma lift_bind {A B : Type} (r : Exn + A) (f : A → M B) (tr : Trace) :
  (lift r ≫= f) tr = match r with inl e => (tr, inl e) | inr x => f x tr end.
Proof. unfold mbind, M_bind, lift. by destruct r. Qed.

(** A successful sequence is a successful first part and then a successful
    second part. *)
Lemma bind_success {A B : Type} (m : M A) (f : A → M B) (tr tr' : Trace) (y : B) :
  (m ≫= f) tr = (tr', inr y) →
  ∃ x tr1, m tr = (tr1, inr x) ∧ f x tr1 = (tr', inr y).
Proof.
  unfold mbind, M_bind. destruct (m tr) as [tr1 [e|x]]; [done |]. eauto.
Qed.

Lemma dc_command_forwards (w : World) (root command : string)
    (args vols others volume_args : list string) :
  parse_volumes args = Some (vols, others) →
  volume_loop w root [] vols = inr volume_args →
  dc_command w root command args =
    docker_compose w root (tutor_config_load w root) (command :: volume_args ++ others).
Proof.
  intros Hparse Hloop. unfold dc_command. cbv zeta. rewrite Hparse. simpl.
  unfold mbind, M_bind, lift. rewrite Hloop. done.
Qed.

Lemma dc_command_propagates (w : World) (root command : string)
    (args vols others : list string) (e : Exn) (tr : Trace) :
  parse_volumes args = Some (vols, others) →
  volume_loop w root [] vols = inl e →
  dc_command w root command args tr = (tr, inl e).
Proof.
  intros Hparse Hloop. unfold dc_command. cbv zeta. rewrite Hparse. simpl.
  unfold mbind, M_bind, lift. rewrite Hloop. done.
Qed.

(** The flags that [run] puts in front are not volume flags. *)
Lemma parse_volumes_run (tty : bool) (args vols others : list string) :
  parse_volumes args = Some (vols, others) →
  parse_volumes ((if negb tty then ["--rm"] ++ ["-T"] else ["--rm"]) ++ args) =
    Some (vols, ["--rm"] ++ (if tty then [] else ["-T"]) ++ others).
Proof. intros H. destruct tty; simpl; rewrite H; done. Qed.

(** C3, as stated, fails for [exec]: in a terminal that is not interactive
    its token sequence has no [-T]. *)
Lemma exec_adds_no_flag :
  is_a_tty (Demo.world false) = false
  ∧ engine_tokens (execute (Demo.world false) Demo.root ["lms"; "ls"] []).1
      = [["exec"; "lms"; "ls"]]
  ∧ "-T" ∉ ["exec"; "lms"; "ls"].
Proof.
  split_and!; [reflexivity | by vm_compute |].
  intros H. repeat (apply elem_of_cons in H as [H|H]; [discriminate H |]).
  by apply elem_of_nil in H.
Qed.

(** C3, amended.  [run_job], on both branches, puts [-T] directly after
    [run] when the terminal is not interactive and nothing there when it is;
    the [run] command puts [-T] directly after the [--rm] it adds when the
    terminal is not interactive and nothing there when it is; the [exec]
    command adds no flag in either case: its token sequence is [exec], the
    volume pairs and the remaining arguments as given. *)
Theorem no_tty_flag (w : World) (root : string) (self : ScriptRunner) (s cmd : string)
    (services : Services) (args vols others volume_args : list string) (tr : Trace) :
  let opts := if is_a_tty w then [] else ["-T"] in
  let jobs_path := pathjoin w (runner_root self) ["local"; "docker-compose.jobs.yml"] in
  let job_tokens :=
    if decide (is_Some (services !! (s +:+ "-job")))
    then ["-f"; jobs_path; "run"] ++ opts ++ ["--rm"; s +:+ "-job"; "sh"; "-e"; "-c"; cmd]
    else ["run"] ++ opts ++ ["--rm"; s; "sh"; "-e"; "-c"; cmd] in
  let run_tokens := "run" :: volume_args ++ ["--rm"] ++ opts ++ others in
  load_services w jobs_path = Some services →
  parse_volumes args = Some (vols, others) →
  volume_loop w root [] vols = inr volume_args →
  engine_tokens (run_job w self s cmd tr).1 = engine_tokens tr ++ [job_tokens]
  ∧ engine_tokens (run w root args tr).1 = engine_tokens tr ++ [run_tokens]
  ∧ engine_tokens (execute w root args tr).1
      = engine_tokens tr ++ ["exec" :: volume_args ++ others]
  ∧ (is_a_tty w = false → "-T" ∈ job_tokens ∧ "-T" ∈ run_tokens).
Proof.
  intros opts jobs_path job_tokens run_tokens Hload Hparse Hloop.
  split_and!.
  - unfold job_tokens. destruct (decide (is_Some (services !! (s +:+ "-job")))) as [Hin|Hout].
    + rewrite (run_job_present w self s cmd services Hload Hin).
      apply docker_compose_tokens.
    + assert (services !! (s +:+ "-job") = None) as Hnone.
      { destruct (services !! (s +:+ "-job")) eqn:E; [|done]. destruct Hout. eauto. }
      rewrite (run_job_absent w self s cmd services tr Hload Hnone).
      rewrite docker_compose_tokens, engine_tokens_app. simpl.
      by rewrite (right_id_L [] (++)).
  - unfold run. cbv zeta.
    rewrite (dc_command_forwards w root "run" _ vols
               (["--rm"] ++ opts ++ others) volume_args); [| | done].
    + apply docker_compose_tokens.
    + by apply parse_volumes_run.
  - unfold execute.
    rewrite (dc_command_forwards w root "exec" args vols others volume_args); [|done..].
    apply docker_compose_tokens.
  - intros Htty. unfold job_tokens, run_tokens, opts. rewrite Htty.
    split.
    + destruct (decide _); set_solver.
    + set_solver.
Qed.

Lemma no_tty_flag_witness :
  load_services (Demo.world false) "/srv/tutor/local/docker-compose.jobs.yml"
    = Some Demo.services
  ∧ parse_volumes ["-v"; "data"; "lms"; "ls"] = Some (["data"], ["lms"; "ls"])
  ∧ volume_loop (Demo.world false) Demo.root [] ["data"]
      = inr ["--volume"; "/srv/tutor/volumes/data:data"]
  ∧ engine_tokens (run (Demo.world false) Demo.root ["-v"; "data"; "lms"; "ls"] []).1
      = [["run"; "--volume"; "/srv/tutor/volumes/data:data"; "--rm"; "-T"; "lms"; "ls"]].
Proof.
  assert (H1 : load_services (Demo.world false) "/srv/tutor/local/docker-compose.jobs.yml"
               = Some Demo.services) by reflexivity.
  assert (H2 : parse_volumes ["-v"; "data"; "lms"; "ls"] = Some (["data"], ["lms"; "ls"]))
    by reflexivity.
  assert (H3 : volume_loop (Demo.world false) Demo.root [] ["data"]
               = inr ["--volume"; "/srv/tutor/volumes/data:data"]) by reflexivity.
  split_and!; [exact H1 | exact H2 | exact H3 |].
  exact (proj1 (proj2
    (no_tty_flag (Demo.world false) Demo.root Demo.runner "lms" "ls" Demo.services
       ["-v"; "data"; "lms"; "ls"] ["data"] ["lms"; "ls"]
       ["--volume"; "/srv/tutor/volumes/data:data"] [] H1 H2 H3))).
Defined.

(** ** The restart family *)

(** C4.  [reboot] is [stop] and then [start] on the same service names and
    detach flag: it hands the engine the [stop] call, and only after that
    call has exited, and exited with status 0, the [up] call that [start]
    would hand it from there.  A failing [stop] is the end of the command. *)
Theorem reboot_is_stop_then_start (w : World) (root : string) (detach : bool)
    (services : list string) (tr : Trace) :
  let config := tutor_config_load w root in
  let stop_call := EngineCall root config ("stop" :: services) in
  let stop_status := engine_status w (tr ++ [stop_call]) in
  let stopped := tr ++ [stop_call; EngineExit stop_status] in
  let up_call :=
    EngineCall root config
      (["up"; "--remove-orphans"] ++ (if detach then ["-d"] else []) ++ services) in
  let up_status := engine_status w (stopped ++ [up_call]) in
  reboot w root detach services tr = (stop w root services ;; start w root detach services) tr
  ∧ (stop w root services tr).1 = stopped
  ∧ (stop_status = 0 →
       (stop w root services tr).2 = inr ()
       ∧ reboot w root detach services tr = start w root detach services stopped
       ∧ reboot w root detach services tr =
           (stopped ++ [up_call; EngineExit up_status],
            if decide (up_status = 0) then inr ()
            else inl (EngineInvocationError up_status))
       ∧ engine_tokens (reboot w root detach services tr).1 =
           engine_tokens tr
             ++ ["stop" :: services;
                 ["up"; "--remove-orphans"] ++ (if detach then ["-d"] else []) ++ services])
  ∧ (stop_status ≠ 0 →
       reboot w root detach services tr = stop w root services tr
       ∧ reboot w root detach services tr = (stopped, inl (EngineInvocationError stop_status))).
Proof.
  intros config stop_call stop_status stopped up_call up_status.
  assert (Hstop : stop w root services tr =
                  (stopped, if decide (stop_status = 0) then inr ()
                            else inl (EngineInvocationError stop_status))).
  { unfold stop. cbv zeta. apply docker_compose_run. }
  assert (Hstart : start w root detach services stopped =
                   (stopped ++ [up_call; EngineExit up_status],
                    if decide (up_status = 0) then inr ()
                    else inl (EngineInvocationError up_status))).
  { unfold start. cbv zeta. rewrite docker_compose_run.
    unfold up_status, up_call. by destruct detach. }
  split_and!.
  - done.
  - by rewrite Hstop.
  - intros H0. unfold reboot, mbind, M_bind. rewrite Hstop.
    rewrite decide_True by done. split_and!; [done | done | exact Hstart |].
    rewrite Hstart. simpl. unfold stopped.
    rewrite !engine_tokens_app. simpl. by rewrite <- (assoc_L (++)).
  - intros Hne. unfold reboot, mbind, M_bind. rewrite Hstop.
    by rewrite decide_False by done.
Qed.

Lemma reboot_is_stop_then_start_witness :
  engine_status (Demo.world true)
    ([] ++ [EngineCall Demo.root (tutor_config_load (Demo.world true) Demo.root)
              ("stop" :: ["lms"; "cms"])]) = 0
  ∧ engine_tokens (reboot (Demo.world true) Demo.root true ["lms"; "cms"] []).1 =
      [["stop"; "lms"; "cms"]; ["up"; "--remove-orphans"; "-d"; "lms"; "cms"]].
Proof.
  assert (H : engine_status (Demo.world true)
                ([] ++ [EngineCall Demo.root (tutor_config_load (Demo.world true) Demo.root)
                          ("stop" :: ["lms"; "cms"])]) = 0) by reflexivity.
  split; [exact H |].
  exact (proj2 (proj2 (proj2
    (proj1 (proj2 (proj2
      (reboot_is_stop_then_start (Demo.world true) Demo.root true ["lms"; "cms"] []))) H)))).
Defined.

(** C5.  When [all] is among the requested names, at any position,
    [restart] hands the engine the bare [restart] command, with no service
    operand, whatever the other names are. *)
Theorem restart_all (w : World) (root : string) (services : list string) (tr : Trace) :
  "all" ∈ services →
  restart w root services tr = docker_compose w root (tutor_config_load w root) ["restart"] tr
  ∧ engine_tokens (restart w root services tr).1 = engine_tokens tr ++ [["restart"]].
Proof.
  intros Hall.
  assert (restart w root services tr =
          docker_compose w root (tutor_config_load w root) ["restart"] tr) as ->.
  { unfold restart. cbv zeta. rewrite lift_bind. by rewrite decide_True. }
  split; [done | apply docker_compose_tokens].
Qed.

Lemma restart_all_witness :
  "all" ∈ ["lms"; "all"; "openedx"]
  ∧ engine_tokens (restart (Demo.world true) Demo.root ["lms"; "all"; "openedx"] []).1
      = [["restart"]].
Proof.
  assert (H : "all" ∈ ["lms"; "all"; "openedx"]).
  { apply elem_of_cons; right. apply elem_of_cons; left. reflexivity. }
  split; [exact H |].
  exact (proj2 (restart_all (Demo.world true) Demo.root ["lms"; "all"; "openedx"] [] H)).
Defined.

(** The loop of [restart] appends to the accumulator what each name stands
    for, in the order of the names. *)
Lemma restart_service_expand (config : Config) (run_lms run_cms : bool)
    (command : list string) (service : string) :
  config !! "RUN_LMS" = Some run_lms →
  config !! "RUN_CMS" = Some run_cms →
  restart_service config command service
    = inr (command ++ spec_expand run_lms run_cms service).
Proof.
  intros Hlms Hcms. unfold restart_service, spec_expand, getitem.
  destruct (decide (service = "openedx")); [|done].
  rewrite Hlms, Hcms.
  destruct run_lms, run_cms; simpl; rewrite <- ?(assoc_L (++)), ?(right_id_L [] (++)); done.
Qed.

Lemma restart_loop_expand (config : Config) (run_lms run_cms : bool)
    (services command : list string) :
  config !! "RUN_LMS" = Some run_lms →
  config !! "RUN_CMS" = Some run_cms →
  restart_loop config command services
    = inr (command ++ concat (map (spec_expand run_lms run_cms) services)).
Proof.
  intros Hlms Hcms. revert command.
  induction services as [|service rest IH]; intros command; simpl.
  - by rewrite (right_id_L [] (++)).
  - rewrite (restart_service_expand config run_lms run_cms) by done.
    rewrite IH. by rewrite <- (assoc_L (++)).
Qed.

(** C6.  When [all] is not among the requested names, [restart] hands the
    engine [restart] followed by what each name stands for, in the order of
    the names: [openedx] stands for [lms], [lms-worker], [cms], [cms-worker]
    when both subsystems are enabled, for the two tokens of the enabled one
    when only one is, and for nothing when none is; any other name stands for
    itself.  A request that expands to nothing is still forwarded, as the
    bare [restart] command. *)
Theorem restart_expands (w : World) (root : string) (run_lms run_cms : bool)
    (services : list string) (tr : Trace) :
  let config := tutor_config_load w root in
  "all" ∉ services →
  config !! "RUN_LMS" = Some run_lms →
  config !! "RUN_CMS" = Some run_cms →
  restart w root services tr =
    docker_compose w root config
      ("restart" :: concat (map (spec_expand run_lms run_cms) services)) tr
  ∧ engine_tokens (restart w root services tr).1 =
      engine_tokens tr ++ ["restart" :: concat (map (spec_expand run_lms run_cms) services)]
  ∧ spec_expand true true "openedx" = ["lms"; "lms-worker"; "cms"; "cms-worker"]
  ∧ spec_expand true false "openedx" = ["lms"; "lms-worker"]
  ∧ spec_expand false true "openedx" = ["cms"; "cms-worker"]
  ∧ spec_expand false false "openedx" = []
  ∧ (∀ service, service ≠ "openedx" → spec_expand run_lms run_cms service = [service])
  ∧ (services = ["openedx"] → run_lms = false → run_cms = false →
       engine_tokens (restart w root services tr).1 = engine_tokens tr ++ [["restart"]]).
Proof.
  intros config Hall Hlms Hcms.
  assert (restart w root services tr =
          docker_compose w root config
            ("restart" :: concat (map (spec_expand run_lms run_cms) services)) tr) as Hrun.
  { unfold restart. cbv zeta. rewrite lift_bind. rewrite decide_False by done.
    fold config. by rewrite (restart_loop_expand config run_lms run_cms). }
  split_and!; try done.
  - rewrite Hrun. apply docker_compose_tokens.
  - intros service Hne. unfold spec_expand. by rewrite decide_False.
  - intros -> -> ->. rewrite Hrun. apply docker_compose_tokens.
Qed.

Lemma restart_expands_witness :
("all" ∉ ["mysql"; "openedx"; "caddy"])
  ∧ Demo.config !! "RUN_LMS" = Some true
  ∧ Demo.config !! "RUN_CMS" = Some false
  ∧ engine_tokens (restart (Demo.world true) Demo.root ["mysql"; "openedx"; "caddy"] []).1
      = [["restart"; "mysql"; "lms"; "lms-worker"; "caddy"]].
Proof.
  assert (H1 : "all" ∉ ["mysql"; "openedx"; "caddy"]).
  { intros H. repeat (apply elem_of_cons in H as [H|H]; [discriminate H |]).
    by apply elem_of_nil in H. }
  assert (H2 : Demo.config !! "RUN_LMS" = Some true) by (vm_compute; reflexivity).
  assert (H3 : Demo.config !! "RUN_CMS" = Some false) by (vm_compute; reflexivity).
  split_and!; [exact H1 | exact H2 | exact H3 |].
  exact (proj1 (proj2
    (restart_expands (Demo.world true) Demo.root true false
       ["mysql"; "openedx"; "caddy"] [] H1 H2 H3))).
Defined.

(** ** Volumes *)

Lemma resolve_volume_raises (w : World) (root d : string) (e : Exn) :
  resolve_volume w root d = inl e →
  Str.has_char ":" d = false
  ∧ os_path_exists w (get_path root d) = false
  ∧ e = TutorError ("Bind-mount volume directory " +:+ get_path root d
                    +:+ " does not exist. It must first be created"
                    +:+ " with the 'bindmount' command.").
Proof.
  unfold resolve_volume.
  destruct (Str.has_char ":" d); simpl; [done |].
  destruct (os_path_exists w (get_path root d)); simpl; [done |].
  intros [= <-]. done.
Qed.

(** The loop of [dc_command] turns the directives into pairs, in order,
    behind what it has accumulated. *)
Lemma volume_loop_returns (w : World) (root : string) (volumes acc result : list string) :
  volume_loop w root acc volumes = inr result →
  ∃ resolved, Forall2 (λ d r, resolve_volume w root d = inr r) volumes resolved
              ∧ result = acc ++ volume_pairs resolved.
Proof.
  revert acc. induction volumes as [|d rest IH]; intros acc; simpl.
  - intros [= <-]. exists []. split; [constructor |].
    unfold volume_pairs. simpl. by rewrite (right_id_L [] (++)).
  - destruct (resolve_volume w root d) as [e|r] eqn:Hd; [done |].
    intros H. destruct (IH _ H) as (resolved & Hall & ->).
    exists (r :: resolved). split; [by constructor |].
    unfold volume_pairs. simpl. by rewrite <- (assoc_L (++)).
Qed.

(** One directive that does not resolve is enough for the loop to raise,
    wherever it stands. *)
Lemma volume_loop_raises (w : World) (root : string) (volumes acc : list string) (d : string) :
  d ∈ volumes →
  Str.has_char ":" d = false →
  os_path_exists w (get_path root d) = false →
  ∃ msg, volume_loop w root acc volumes = inl (TutorError msg).
Proof.
  intros Hin Hnamed Hmissing. revert acc.
  induction volumes as [|d' rest IH]; intros acc; [by apply elem_of_nil in Hin |].
  simpl. destruct (resolve_volume w root d') as [e|r] eqn:Hd'.
  - apply resolve_volume_raises in Hd' as (_ & _ & ->). eauto.
  - apply elem_of_cons in Hin as [->|Hin]; [| by apply IH].
    unfold resolve_volume in Hd'. rewrite Hnamed, Hmissing in Hd'. done.
Qed.

Lemma volume_pairs_app (xs ys : list string) :
  volume_pairs (xs ++ ys) = volume_pairs xs ++ volume_pairs ys.
Proof. unfold volume_pairs. by rewrite map_app, concat_app. Qed.

(** When every directive resolves, the loop hands on the pairs of what they
    resolve to, in order, behind what it has accumulated. *)
Lemma volume_loop_resolved (w : World) (root : string) (volumes resolved acc : list string) :
  Forall2 (λ v r, resolve_volume w root v = inr r) volumes resolved →
  volume_loop w root acc volumes = inr (acc ++ volume_pairs resolved).
Proof.
  intros Hall. revert acc. induction Hall as [|v r volumes resolved Hv _ IH]; intros acc.
  - unfold volume_pairs. simpl. by rewrite (right_id_L [] (++)).
  - simpl. rewrite Hv, IH. unfold volume_pairs. simpl. by rewrite <- (assoc_L (++)).
Qed.

(** The loop stops at the first directive that does not resolve. *)
Lemma volume_loop_stops (w : World) (root : string)
    (before resolved after acc : list string) (d : string) (e : Exn) :
  Forall2 (λ v r, resolve_volume w root v = inr r) before resolved →
  resolve_volume w root d = inl e →
  volume_loop w root acc (before ++ d :: after) = inl e.
Proof.
  intros Hall Hd. revert acc. induction Hall as [|v r before resolved Hv _ IH]; intros acc.
  - simpl. by rewrite Hd.
  - simpl. rewrite Hv. apply IH.
Qed.

(** C7.  Take a directive [d] of a passthrough command, the directives in
    front of it resolving.  When [d] has no [:] and the path
    [<root>/volumes/<d>] exists, the command hands the engine the pair
    [--volume <root>/volumes/<d>:<d>] at the place of [d] among the pairs;
    when [d] has no [:] and the path does not exist, the command raises a
    [TutorError] that tells the user to create it with the [bindmount]
    command, and the engine is not called; when [d] has a [:], the command
    hands the engine the pair [--volume <d>], whatever exists on disk. *)
Theorem dc_command_resolves_each_volume (w : World) (root command : string)
    (args before after others resolved_before resolved_after : list string)
    (d : string) (tr : Trace) :
  let config := tutor_config_load w root in
  let path := root +:+ "/volumes/" +:+ d in
  parse_volumes args = Some (before ++ d :: after, others) →
  Forall2 (λ v r, resolve_volume w root v = inr r) before resolved_before →
  (Str.has_char ":" d = false →
   os_path_exists w path = true →
   Forall2 (λ v r, resolve_volume w root v = inr r) after resolved_after →
   dc_command w root command args tr =
     docker_compose w root config
       (command :: (volume_pairs resolved_before ++ ["--volume"; path +:+ ":" +:+ d]
                      ++ volume_pairs resolved_after) ++ others) tr
   ∧ engine_tokens (dc_command w root command args tr).1 =
       engine_tokens tr ++
         [command :: (volume_pairs resolved_before ++ ["--volume"; path +:+ ":" +:+ d]
                        ++ volume_pairs resolved_after) ++ others])
  ∧ (Str.has_char ":" d = false →
     os_path_exists w path = false →
     dc_command w root command args tr =
       (tr, inl (TutorError ("Bind-mount volume directory " +:+ path
                             +:+ " does not exist. It must first be created"
                             +:+ " with the 'bindmount' command.")))
     ∧ engine_calls (dc_command w root command args tr).1 = engine_calls tr)
  ∧ (Str.has_char ":" d = true →
     Forall2 (λ v r, resolve_volume w root v = inr r) after resolved_after →
     dc_command w root command args tr =
       docker_compose w root config
         (command :: (volume_pairs resolved_before ++ ["--volume"; d]
                        ++ volume_pairs resolved_after) ++ others) tr
     ∧ engine_tokens (dc_command w root command args tr).1 =
         engine_tokens tr ++
           [command :: (volume_pairs resolved_before ++ ["--volume"; d]
                          ++ volume_pairs resolved_after) ++ others]).
Proof.
  intros config path Hparse Hbefore.
  assert (∀ r, resolve_volume w root d = inr r →
               Forall2 (λ v r, resolve_volume w root v = inr r) after resolved_after →
               dc_command w root command args tr =
                 docker_compose w root config
                   (command :: (volume_pairs resolved_before ++ ["--volume"; r]
                                  ++ volume_pairs resolved_after) ++ others) tr) as Hrun.
  { intros r Hd Hafter.
    rewrite (dc_command_forwards w root command args (before ++ d :: after) others
               (volume_pairs resolved_before ++ ["--volume"; r]
                  ++ volume_pairs resolved_after)); [done | done |].
    rewrite (volume_loop_resolved w root _ (resolved_before ++ r :: resolved_after)).
    - by rewrite volume_pairs_app.
    - apply Forall2_app; [done |]. by constructor. }
  split_and!.
  - intros Hnamed Hexists Hafter.
    assert (resolve_volume w root d = inr (path +:+ ":" +:+ d)) as Hd.
    { unfold resolve_volume, get_path. fold path. by rewrite Hnamed, Hexists. }
    rewrite (Hrun _ Hd Hafter). split; [done | apply docker_compose_tokens].
  - intros Hnamed Hmissing.
    assert (resolve_volume w root d =
            inl (TutorError ("Bind-mount volume directory " +:+ path
                             +:+ " does not exist. It must first be created"
                             +:+ " with the 'bindmount' command."))) as Hd.
    { unfold resolve_volume, get_path. fold path. by rewrite Hnamed, Hmissing. }
    rewrite (dc_command_propagates w root command args (before ++ d :: after) others _ tr
               Hparse (volume_loop_stops w root before resolved_before after [] d _
                         Hbefore Hd)).
    done.
  - intros Hqualified Hafter.
    assert (resolve_volume w root d = inr d) as Hd.
    { unfold resolve_volume. by rewrite Hqualified. }
    rewrite (Hrun _ Hd Hafter). split; [done | apply docker_compose_tokens].
Qed.

Lemma dc_command_resolves_each_volume_witness :
  parse_volumes ["-v"; "/a:/b"; "lms"; "-v"; "data"; "--volume=/abs/path:foo"; "ls"]
    = Some (["/a:/b"] ++ "data" :: ["/abs/path:foo"], ["lms"; "ls"])
  ∧ Forall2 (λ v r, resolve_volume (Demo.world true) Demo.root v = inr r) ["/a:/b"] ["/a:/b"]
  ∧ Str.has_char ":" "data" = false
  ∧ os_path_exists (Demo.world true) "/srv/tutor/volumes/data" = true
  ∧ Forall2 (λ v r, resolve_volume (Demo.world true) Demo.root v = inr r)
      ["/abs/path:foo"] ["/abs/path:foo"]
  ∧ engine_tokens
      (dc_command (Demo.world true) Demo.root "run"
         ["-v"; "/a:/b"; "lms"; "-v"; "data"; "--volume=/abs/path:foo"; "ls"] []).1
    = [["run"; "--volume"; "/a:/b"; "--volume"; "/srv/tutor/volumes/data:data";
        "--volume"; "/abs/path:foo"; "lms"; "ls"]]
  ∧ parse_volumes ["-v"; "/a:/b"; "lms"; "-v"; "cache"; "ls"]
    = Some (["/a:/b"] ++ "cache" :: [], ["lms"; "ls"])
  ∧ Str.has_char ":" "cache" = false
  ∧ os_path_exists (Demo.world true) "/srv/tutor/volumes/cache" = false
  ∧ dc_command (Demo.world true) Demo.root "run"
      ["-v"; "/a:/b"; "lms"; "-v"; "cache"; "ls"] []
    = ([], inl (TutorError "Bind-mount volume directory /srv/tutor/volumes/cache does not exist. It must first be created with the 'bindmount' command."))
  ∧ parse_volumes ["-v"; "/a:/b"; "-v"; "/abs/path:foo"; "lms"]
    = Some (["/a:/b"] ++ "/abs/path:foo" :: [], ["lms"])
  ∧ Str.has_char ":" "/abs/path:foo" = true
  ∧ engine_tokens
      (dc_command (Demo.world true) Demo.root "exec"
         ["-v"; "/a:/b"; "-v"; "/abs/path:foo"; "lms"] []).1
    = [["exec"; "--volume"; "/a:/b"; "--volume"; "/abs/path:foo"; "lms"]].
Proof.
  assert (P1 : parse_volumes
                 ["-v"; "/a:/b"; "lms"; "-v"; "data"; "--volume=/abs/path:foo"; "ls"]
               = Some (["/a:/b"] ++ "data" :: ["/abs/path:foo"], ["lms"; "ls"]))
    by reflexivity.
  assert (B : Forall2 (λ v r, resolve_volume (Demo.world true) Demo.root v = inr r)
                ["/a:/b"] ["/a:/b"]).
  { constructor; [reflexivity | constructor]. }
  assert (N1 : Str.has_char ":" "data" = false) by reflexivity.
  assert (E1 : os_path_exists (Demo.world true) "/srv/tutor/volumes/data" = true)
    by reflexivity.
  assert (A1 : Forall2 (λ v r, resolve_volume (Demo.world true) Demo.root v = inr r)
                 ["/abs/path:foo"] ["/abs/path:foo"]).
  { constructor; [reflexivity | constructor]. }
  assert (P2 : parse_volumes ["-v"; "/a:/b"; "lms"; "-v"; "cache"; "ls"]
               = Some (["/a:/b"] ++ "cache" :: [], ["lms"; "ls"])) by reflexivity.
  assert (N2 : Str.has_char ":" "cache" = false) by reflexivity.
  assert (E2 : os_path_exists (Demo.world true) "/srv/tutor/volumes/cache" = false)
    by reflexivity.
  assert (P3 : parse_volumes ["-v"; "/a:/b"; "-v"; "/abs/path:foo"; "lms"]
               = Some (["/a:/b"] ++ "/abs/path:foo" :: [], ["lms"])) by reflexivity.
  assert (N3 : Str.has_char ":" "/abs/path:foo" = true) by reflexivity.
  assert (A3 : Forall2 (λ v r, resolve_volume (Demo.world true) Demo.root v = inr r) [] []).
  { constructor. }
  split_and!.
  - exact P1.
  - exact B.
  - exact N1.
  - exact E1.
  - exact A1.
  - exact (proj2 (proj1
      (dc_command_resolves_each_volume (Demo.world true) Demo.root "run" _
         ["/a:/b"] ["/abs/path:foo"] ["lms"; "ls"] ["/a:/b"] ["/abs/path:foo"] "data" []
         P1 B) N1 E1 A1)).
  - exact P2.
  - exact N2.
  - exact E2.
  - exact (proj1 (proj1 (proj2
      (dc_command_resolves_each_volume (Demo.world true) Demo.root "run" _
         ["/a:/b"] [] ["lms"; "ls"] ["/a:/b"] [] "cache" [] P2 B)) N2 E2)).
  - exact P3.
  - exact N3.
  - exact (proj2 (proj2 (proj2
      (dc_command_resolves_each_volume (Demo.world true) Demo.root "exec" _
         ["/a:/b"] [] ["lms"] ["/a:/b"] [] "/abs/path:foo" [] P3 B)) N3 A3)).
Defined.

(** C10.  When one of the named directives of a passthrough command has no
    directory on disk, the command raises a [TutorError] and the trace is
    left as it was: nothing is handed to the engine, also when directives in
    front of the failing one resolved. *)
Theorem dc_command_raises_before_engine (w : World) (root command : string)
    (args vols others : list string) (d : string) (tr : Trace) :
  parse_volumes args = Some (vols, others) →
  d ∈ vols →
  Str.has_char ":" d = false →
  os_path_exists w (get_path root d) = false →
  (∃ msg, dc_command w root command args tr = (tr, inl (TutorError msg)))
  ∧ (dc_command w root command args tr).1 = tr
  ∧ engine_calls (dc_command w root command args tr).1 = engine_calls tr.
Proof.
  intros Hparse Hin Hnamed Hmissing.
  destruct (volume_loop_raises w root vols [] d Hin Hnamed Hmissing) as [msg Hloop].
  rewrite (dc_command_propagates w root command args vols others _ tr Hparse Hloop).
  eauto.
Qed.

Lemma dc_command_raises_before_engine_witness :
  parse_volumes ["-v"; "data"; "lms"; "--volume=cache"; "ls"]
    = Some (["data"; "cache"], ["lms"; "ls"])
  ∧ "cache" ∈ ["data"; "cache"]
  ∧ Str.has_char ":" "cache" = false
  ∧ os_path_exists (Demo.world true) (get_path Demo.root "cache") = false
  ∧ resolve_volume (Demo.world true) Demo.root "data" = inr "/srv/tutor/volumes/data:data"
  ∧ (dc_command (Demo.world true) Demo.root "run"
       ["-v"; "data"; "lms"; "--volume=cache"; "ls"] []).1 = [].
Proof.
  assert (H1 : parse_volumes ["-v"; "data"; "lms"; "--volume=cache"; "ls"]
               = Some (["data"; "cache"], ["lms"; "ls"])) by reflexivity.
  assert (H2 : "cache" ∈ ["data"; "cache"]).
  { apply elem_of_cons; right. apply elem_of_cons; left. reflexivity. }
  assert (H3 : Str.has_char ":" "cache" = false) by reflexivity.
  assert (H4 : os_path_exists (Demo.world true) (get_path Demo.root "cache") = false)
    by reflexivity.
  split_and!; [exact H1 | exact H2 | exact H3 | exact H4 | reflexivity |].
  exact (proj1 (proj2
    (dc_command_raises_before_engine (Demo.world true) Demo.root "run"
       ["-v"; "data"; "lms"; "--volume=cache"; "ls"] ["data"; "cache"] ["lms"; "ls"]
       "cache" [] H1 H2 H3 H4))).
Defined.

(** *** The split of the argument list *)

Lemma parse_volumes_cons (token : string) (rest : list string) :
  parse_volumes (token :: rest) =
    if is_volume_flag token then
      match rest with
      | [] => None
      | value :: rest' =>
          '(volumes, others) ← parse_volumes rest'; Some (value :: volumes, others)
      end
    else if Str.startswith "--volume=" token then
      '(volumes, others) ← parse_volumes rest; Some (Str.drop 9 token :: volumes, others)
    else
      '(volumes, others) ← parse_volumes rest; Some (volumes, token :: others).
Proof. reflexivity. Qed.

(** Induction on a successful split, following the three kinds of token. *)
Lemma parse_volumes_split (P : list string → list string → list string → Prop) :
  P [] [] [] →
  (∀ flag value rest vols others,
     is_volume_flag flag = true →
     parse_volumes rest = Some (vols, others) → P rest vols others →
     P (flag :: value :: rest) (value :: vols) others) →
  (∀ token rest vols others,
     is_volume_flag token = false → Str.startswith "--volume=" token = true →
     parse_volumes rest = Some (vols, others) → P rest vols others →
     P (token :: rest) (Str.drop 9 token :: vols) others) →
  (∀ token rest vols others,
     is_volume_flag token = false → Str.startswith "--volume=" token = false →
     parse_volumes rest = Some (vols, others) → P rest vols others →
     P (token :: rest) vols (token :: others)) →
  ∀ args vols others, parse_volumes args = Some (vols, others) → P args vols others.
Proof.
  intros Hnil Hflag Hglued Hother args.
  remember (length args) as n eqn:Hn. revert args Hn.
  induction n as [n IH] using lt_wf_ind. intros args Hn vols others.
  destruct args as [|token rest]; [by intros [= <- <-] |].
  rewrite parse_volumes_cons.
  destruct (is_volume_flag token) eqn:Eflag.
  - destruct rest as [|value rest']; [done |].
    destruct (parse_volumes rest') as [[vs os]|] eqn:Erest; [|done].
    simpl. intros [= <- <-]. apply Hflag; [done..|].
    apply (IH (length rest')); [simpl in Hn; lia | done | done].
  - destruct (parse_volumes rest) as [[vs os]|] eqn:Erest;
      [| by destruct (Str.startswith "--volume=" token)].
    assert (P rest vs os) as HP.
    { apply (IH (length rest)); [simpl in Hn; lia | done | done]. }
    destruct (Str.startswith "--volume=" token) eqn:Eglued; simpl; intros [= <- <-].
    + by apply Hglued.
    + by apply Hother.
Qed.

(** The split of two argument lists put end to end is the two splits put
    end to end: what comes first stays first, among the directives and among
    the other tokens. *)
Lemma parse_volumes_app (xs ys vx ox vy oy : list string) :
  parse_volumes xs = Some (vx, ox) →
  parse_volumes ys = Some (vy, oy) →
  parse_volumes (xs ++ ys) = Some (vx ++ vy, ox ++ oy).
Proof.
  intros Hx Hy. revert xs vx ox Hx.
  apply (parse_volumes_split
           (λ xs vx ox, parse_volumes (xs ++ ys) = Some (vx ++ vy, ox ++ oy))).
  - done.
  - intros flag value rest vols others Hflag _ IH.
    change ((flag :: value :: rest) ++ ys) with (flag :: value :: (rest ++ ys)).
    rewrite parse_volumes_cons, Hflag, IH. done.
  - intros token rest vols others Hflag Hglued _ IH.
    change ((token :: rest) ++ ys) with (token :: (rest ++ ys)).
    rewrite parse_volumes_cons, Hflag, Hglued, IH. done.
  - intros token rest vols others Hflag Hglued _ IH.
    change ((token :: rest) ++ ys) with (token :: (rest ++ ys)).
    rewrite parse_volumes_cons, Hflag, Hglued, IH. done.
Qed.

Lemma parse_volumes_others_sublist (args vols others : list string) :
  parse_volumes args = Some (vols, others) → others `sublist_of` args.
Proof.
  revert args vols others.
  apply (parse_volumes_split (λ args _ others, others `sublist_of` args)).
  - constructor.
  - intros. by do 2 apply sublist_cons.
  - intros. by apply sublist_cons.
  - intros. by apply sublist_skip.
Qed.

Lemma parse_volumes_others_plain (args vols others : list string) :
  parse_volumes args = Some (vols, others) →
  Forall (λ token, is_volume_flag token = false
                   ∧ Str.startswith "--volume=" token = false) others.
Proof.
  revert args vols others.
  apply (parse_volumes_split
           (λ _ _ others, Forall (λ token, is_volume_flag token = false
                                  ∧ Str.startswith "--volume=" token = false) others)).
  - constructor.
  - done.
  - done.
  - intros. by constructor.
Qed.

(** C9.  The token sequence that [dc_command] hands to the engine is the
    subcommand, then all the [--volume] pairs, then all the other tokens of
    the argument list: every pair comes before every other token of the
    argument list, wherever the volume flags stood.  The other tokens are
    those of the argument list in their order, none of them a volume flag,
    and the directives are in the order of the argument list too. *)
Theorem dc_command_volumes_first (w : World) (root command : string)
    (args vols others volume_args : list string) (tr : Trace) :
  parse_volumes args = Some (vols, others) →
  volume_loop w root [] vols = inr volume_args →
  ∃ resolved,
    Forall2 (λ d r, resolve_volume w root d = inr r) vols resolved
    ∧ engine_tokens (dc_command w root command args tr).1 =
        engine_tokens tr ++ [command :: volume_pairs resolved ++ others]
    ∧ others `sublist_of` args
    ∧ Forall (λ token, is_volume_flag token = false
                       ∧ Str.startswith "--volume=" token = false) others
    ∧ (∀ xs ys vx ox vy oy,
         args = xs ++ ys →
         parse_volumes xs = Some (vx, ox) →
         parse_volumes ys = Some (vy, oy) →
         vols = vx ++ vy ∧ others = ox ++ oy).
Proof.
  intros Hparse Hloop.
  destruct (volume_loop_returns w root vols [] volume_args Hloop) as (resolved & Hall & ->).
  exists resolved. split_and!.
  - done.
  - rewrite (dc_command_forwards w root command args vols others _ Hparse Hloop).
    apply docker_compose_tokens.
  - by eapply parse_volumes_others_sublist.
  - by eapply parse_volumes_others_plain.
  - intros xs ys vx ox vy oy -> Hx Hy.
    rewrite (parse_volumes_app xs ys vx ox vy oy Hx Hy) in Hparse.
    by injection Hparse as <- <-.
Qed.

Lemma dc_command_volumes_first_witness :
  parse_volumes ["lms"; "-v"; "data"; "ls"; "--volume=/a:/b"; "-l"]
    = Some (["data"; "/a:/b"], ["lms"; "ls"; "-l"])
  ∧ volume_loop (Demo.world true) Demo.root [] ["data"; "/a:/b"]
      = inr ["--volume"; "/srv/tutor/volumes/data:data"; "--volume"; "/a:/b"]
  ∧ engine_tokens (dc_command (Demo.world true) Demo.root "run"
                     ["lms"; "-v"; "data"; "ls"; "--volume=/a:/b"; "-l"] []).1
      = [["run"; "--volume"; "/srv/tutor/volumes/data:data"; "--volume"; "/a:/b";
          "lms"; "ls"; "-l"]].
Proof.
  assert (H1 : parse_volumes ["lms"; "-v"; "data"; "ls"; "--volume=/a:/b"; "-l"]
               = Some (["data"; "/a:/b"], ["lms"; "ls"; "-l"])) by reflexivity.
  assert (H2 : volume_loop (Demo.world true) Demo.root [] ["data"; "/a:/b"]
               = inr ["--volume"; "/srv/tutor/volumes/data:data"; "--volume"; "/a:/b"])
    by reflexivity.
  split_and!; [exact H1 | exact H2 |].
  destruct (dc_command_volumes_first (Demo.world true) Demo.root "run"
              ["lms"; "-v"; "data"; "ls"; "--volume=/a:/b"; "-l"]
              ["data"; "/a:/b"] ["lms"; "ls"; "-l"]
              ["--volume"; "/srv/tutor/volumes/data:data"; "--volume"; "/a:/b"] [] H1 H2)
    as (resolved & Hall & Htokens & _).
  rewrite Htokens.
  inversion Hall as [|d1 r1 ? ? Hr1 Hall1]; subst.
  inversion Hall1 as [|d2 r2 ? ? Hr2 Hall2]; subst.
  inversion Hall2; subst.
  injection Hr1 as <-. injection Hr2 as <-. reflexivity.
Defined.

(** ** Engine calls per command *)

Lemma run_job_calls (w : World) (self : ScriptRunner) (s cmd : string)
    (services : Services) (tr : Trace) :
  load_services w (pathjoin w (runner_root self) ["local"; "docker-compose.jobs.yml"])
    = Some services →
  engine_calls (run_job w self s cmd tr).1 = engine_calls tr + 1.
Proof.
  intros Hload.
  destruct (services !! (s +:+ "-job")) as [spec|] eqn:E.
  - rewrite (run_job_present w self s cmd services Hload); [| by rewrite E; eauto].
    apply docker_compose_calls.
  - rewrite (run_job_absent w self s cmd services tr Hload E).
    rewrite docker_compose_calls, engine_calls_app. unfold engine_calls at 2. simpl. lia.
Qed.

Lemma run_job_completes (w : World) (self : ScriptRunner) (s cmd : string)
    (tr tr' : Trace) :
  run_job w self s cmd tr = (tr', inr ()) →
  engine_calls tr' = engine_calls tr + 1.
Proof.
  intros H.
  destruct (load_services w (pathjoin w (runner_root self) ["local"; "docker-compose.jobs.yml"]))
    as [services|] eqn:Hload.
  - pose proof (run_job_calls w self s cmd services tr Hload) as Hcalls.
    by rewrite H in Hcalls.
  - unfold run_job, read_services in H. rewrite Hload in H. done.
Qed.

Lemma run_jobs_complete (w : World) (runner : ScriptRunner)
    (jobs : list (string * string)) (tr tr' : Trace) :
  run_jobs w runner jobs tr = (tr', inr ()) →
  engine_calls tr' = engine_calls tr + length jobs.
Proof.
  revert tr. induction jobs as [|[service command] rest IH]; intros tr; simpl.
  - intros [= <-]. lia.
  - intros H. apply bind_success in H as ([] & tr1 & Hjob & Hrest).
    apply run_job_completes in Hjob. apply IH in Hrest. lia.
Qed.

Lemma settheme_loop_completes (w : World) (theme_name : string) (runner : ScriptRunner)
    (domain_names : list string) (tr tr' : Trace) :
  settheme_loop w theme_name runner domain_names tr = (tr', inr ()) →
  engine_calls tr' =
    engine_calls tr + length (concat (map (set_theme_jobs w theme_name) domain_names)).
Proof.
  revert tr. induction domain_names as [|domain_name rest IH]; intros tr; simpl.
  - intros [= <-]. lia.
  - intros H. apply bind_success in H as ([] & tr1 & Hone & Hrest).
    apply run_jobs_complete in Hone. apply IH in Hrest.
    rewrite length_app. lia.
Qed.

Lemma docker_compose_completes (w : World) (root : string) (config : Config)
    (tokens : list string) (tr tr' : Trace) (r : Exn + ()) :
  docker_compose w root config tokens tr = (tr', r) →
  engine_calls tr' = engine_calls tr + 1.
Proof.
  intros H. pose proof (docker_compose_calls w root config tokens tr) as Hcalls.
  by rewrite H in Hcalls.
Qed.

Lemma dc_command_completes (w : World) (root command : string) (args : list string)
    (tr tr' : Trace) :
  dc_command w root command args tr = (tr', inr ()) →
  engine_calls tr' = engine_calls tr + 1.
Proof.
  intros H.
  destruct (parse_volumes args) as [[vols others]|] eqn:Hparse.
  - destruct (volume_loop w root [] vols) as [e|volume_args] eqn:Hloop.
    + by rewrite (dc_command_propagates w root command args vols others e tr) in H.
    + rewrite (dc_command_forwards w root command args vols others volume_args) in H
        by done.
      by eapply docker_compose_completes.
  - unfold dc_command in H. cbv zeta in H. rewrite Hparse in H. done.
Qed.

Lemma restart_completes (w : World) (root : string) (services : list string)
    (tr tr' : Trace) :
  restart w root services tr = (tr', inr ()) →
  engine_calls tr' = engine_calls tr + 1.
Proof.
  unfold restart. cbv zeta. rewrite lift_bind.
  destruct (if decide ("all" ∈ services) then _ else _) as [e|command]; [done |].
  apply docker_compose_completes.
Qed.

Lemma reboot_completes (w : World) (root : string) (detach : bool)
    (services : list string) (tr tr' : Trace) :
  reboot w root detach services tr = (tr', inr ()) →
  engine_calls tr' = engine_calls tr + 2.
Proof.
  intros H. apply bind_success in H as ([] & tr1 & Hstop & Hstart).
  apply docker_compose_completes in Hstop, Hstart. lia.
Qed.

(** C8, as stated, fails: [settheme] without a domain name completes
    without a single engine call. *)
Lemma settheme_without_domains :
  issue (Demo.world true) Demo.root (Settheme "indigo" []) [] = ([], inr ())
  ∧ engine_calls (issue (Demo.world true) Demo.root (Settheme "indigo" []) []).1 = 0.
Proof. split; reflexivity. Qed.

(** C8, amended.  A [start], [stop], [restart], [createuser], [dc], [run],
    [exec] or [logs] command that completes has handed the engine exactly
    one call, and a [reboot] that completes exactly two; a [settheme] that
    completes has handed it one call per job of its domain names, none when
    there is no domain name.  [run_job] hands the engine exactly one call on
    either branch once the job definition is parsed, whatever the engine
    answers. *)
Theorem engine_calls_per_command (w : World) (root : string) (c : Command)
    (self : ScriptRunner) (s cmd : string) (services : Services) (tr tr' : Trace) :
  (issue w root c tr = (tr', inr ()) →
   engine_calls tr' = engine_calls tr + expected_calls w c)
  ∧ (load_services w (pathjoin w (runner_root self) ["local"; "docker-compose.jobs.yml"])
       = Some services →
     engine_calls (run_job w self s cmd tr).1 = engine_calls tr + 1).
Proof.
  split; [| apply run_job_calls].
  destruct c; simpl.
  - apply docker_compose_completes.
  - apply docker_compose_completes.
  - apply restart_completes.
  - apply reboot_completes.
  - apply run_job_completes.
  - apply settheme_loop_completes.
  - apply dc_command_completes.
  - apply dc_command_completes.
  - apply dc_command_completes.
  - apply dc_command_completes.
Qed.

Lemma engine_calls_per_command_witness :
  issue (Demo.world true) Demo.root (Reboot true ["lms"]) [] =
    ([EngineCall Demo.root Demo.config ["stop"; "lms"]; EngineExit 0;
      EngineCall Demo.root Demo.config ["up"; "--remove-orphans"; "-d"; "lms"];
      EngineExit 0], inr ())
  ∧ load_services (Demo.world true) "/srv/tutor/local/docker-compose.jobs.yml"
      = Some Demo.services
  ∧ engine_calls
      [EngineCall Demo.root Demo.config ["stop"; "lms"]; EngineExit 0;
       EngineCall Demo.root Demo.config ["up"; "--remove-orphans"; "-d"; "lms"];
       EngineExit 0] = 0 + 2
  ∧ engine_calls (run_job (Demo.world true) Demo.runner "lms" "ls" []).1 = 0 + 1.
Proof.
  assert (H1 : issue (Demo.world true) Demo.root (Reboot true ["lms"]) [] =
               ([EngineCall Demo.root Demo.config ["stop"; "lms"]; EngineExit 0;
                 EngineCall Demo.root Demo.config ["up"; "--remove-orphans"; "-d"; "lms"];
                 EngineExit 0], inr ())) by reflexivity.
  assert (H2 : load_services (Demo.world true) "/srv/tutor/local/docker-compose.jobs.yml"
               = Some Demo.services) by reflexivity.
  split_and!; [exact H1 | exact H2 | |].
  - exact (proj1 (engine_calls_per_command (Demo.world true) Demo.root (Reboot true ["lms"])
                    Demo.runner "lms" "ls" Demo.services [] _) H1).
  - exact (proj2 (engine_calls_per_command (Demo.world true) Demo.root (Reboot true ["lms"])
                    Demo.runner "lms" "ls" Demo.services [] []) H2).
Defined.

(** * Further properties of the commands *)

(** ** More on strings *)

Lemma append_cons (a : ascii) (s t : string) : String a s +:+ t = String a (s +:+ t).
Proof. reflexivity. Qed.


(** A suffix can be cancelled. *)
Lemma append_inj_l (s1 s2 t : string) : s1 +:+ t = s2 +:+ t → s1 = s2.
Proof.
  revert s2. induction s1 as [|a s1 IH]; intros [|b s2] H.
  - done.
  - apply (f_equal String.length) in H. rewrite !length_append in H. simpl in H. lia.
  - apply (f_equal String.length) in H. rewrite !length_append in H. simpl in H. lia.
  - rewrite !append_cons in H. injection H as -> H. by rewrite (IH s2 H).
Qed.

Lemma has_char_append (c : ascii) (s t : string) :
  Str.has_char c (s +:+ t) = Str.has_char c s || Str.has_char c t.
Proof.
  induction s as [|a s IH]; simpl; [done |]. by destruct (Ascii.eqb a c).
Qed.




(** ** More on the job runner *)

(** The token sequence of the one call of [run_job]. *)
Lemma run_job_tokens (w : World) (self : ScriptRunner) (s cmd : string)
    (services : Services) (tr : Trace) :
  load_services w (pathjoin w (runner_root self) ["local"; "docker-compose.jobs.yml"])
    = Some services →
  engine_tokens (run_job w self s cmd tr).1 =
    engine_tokens tr ++
      [if decide (is_Some (services !! (s +:+ "-job")))
       then ["-f"; pathjoin w (runner_root self) ["local"; "docker-compose.jobs.yml"]; "run"]
              ++ (if is_a_tty w then [] else ["-T"])
              ++ ["--rm"; s +:+ "-job"; "sh"; "-e"; "-c"; cmd]
       else ["run"] ++ (if is_a_tty w then [] else ["-T"])
              ++ ["--rm"; s; "sh"; "-e"; "-c"; cmd]].
Proof.
  intros Hload.
  destruct (decide (is_Some (services !! (s +:+ "-job")))) as [Hin|Hout].
  - rewrite (run_job_present w self s cmd services Hload Hin).
    apply docker_compose_tokens.
  - assert (services !! (s +:+ "-job") = None) as Hnone.
    { destruct (services !! (s +:+ "-job")) eqn:E; [|done]. destruct Hout. eauto. }
    rewrite (run_job_absent w self s cmd services tr Hload Hnone).
    rewrite docker_compose_tokens, engine_tokens_app. simpl.
    by rewrite (right_id_L [] (++)).
Qed.

(** X1.  When the job definition cannot be read or parsed, [run_job]
    raises at once: no alert is shown and nothing is handed to the engine.
    The error goes through [createuser] as it is. *)
Theorem run_job_unreadable_definition (w : World) (root s cmd : string)
    (superuser staff : bool) (password : option string) (name email : string)
    (tr : Trace) :
  let jobs_path := pathjoin w root ["local"; "docker-compose.jobs.yml"] in
  load_services w jobs_path = None →
  (∀ config, run_job w {| runner_root := root; runner_config := config |} s cmd tr
             = (tr, inl (DefinitionParseError jobs_path)))
  ∧ createuser w root superuser staff password name email tr
    = (tr, inl (DefinitionParseError jobs_path)).
Proof.
  intros jobs_path Hload.
  assert (∀ config s' cmd',
            run_job w {| runner_root := root; runner_config := config |} s' cmd' tr
            = (tr, inl (DefinitionParseError jobs_path))) as Hraise.
  { intros config s' cmd'. unfold run_job, read_services. simpl.
    fold jobs_path. by rewrite Hload. }
  split; [intros config; apply Hraise |].
  unfold createuser. cbv zeta. apply Hraise.
Qed.

Lemma run_job_unreadable_definition_witness :
  load_services (Demo.world true) "/home/me/local/docker-compose.jobs.yml" = None
  ∧ createuser (Demo.world true) "/home/me" true true None "ada" "ada@example.com" []
    = ([], inl (DefinitionParseError "/home/me/local/docker-compose.jobs.yml")).
Proof.
  assert (H : load_services (Demo.world true) "/home/me/local/docker-compose.jobs.yml" = None)
    by reflexivity.
  split; [exact H |].
  exact (proj2 (run_job_unreadable_definition (Demo.world true) "/home/me" "lms" "ls"
                  true true None "ada" "ada@example.com" [] H)).
Defined.

(** X2.  The call that [run_job] hands to the engine tells the job apart:
    two jobs with the same token sequence have the same service and the same
    command. *)
Theorem run_job_call_determines_job (w : World) (self : ScriptRunner)
    (s1 cmd1 s2 cmd2 : string) (services : Services) (tr : Trace) :
  load_services w (pathjoin w (runner_root self) ["local"; "docker-compose.jobs.yml"])
    = Some services →
  engine_tokens (run_job w self s1 cmd1 tr).1 = engine_tokens (run_job w self s2 cmd2 tr).1 →
  s1 = s2 ∧ cmd1 = cmd2.
Proof.
  intros Hload.
  rewrite (run_job_tokens w self s1 cmd1 services tr Hload).
  rewrite (run_job_tokens w self s2 cmd2 services tr Hload).
  intros H. apply app_inv_head in H. injection H as H. revert H.
  destruct (decide (is_Some (services !! (s1 +:+ "-job"))));
    destruct (decide (is_Some (services !! (s2 +:+ "-job"))));
    destruct (is_a_tty w); simpl; intros H; try discriminate H.
  all: simplify_eq; try done.
  all: split; [by eapply append_inj_l | done].
Qed.

Lemma run_job_call_determines_job_witness :
  load_services (Demo.world true) "/srv/tutor/local/docker-compose.jobs.yml"
    = Some Demo.services
  ∧ engine_tokens (run_job (Demo.world true) Demo.runner "lms" "ls" []).1
    = engine_tokens (run_job (Demo.world true) Demo.runner "lms" "ls" []).1
  ∧ "lms" = "lms" ∧ "ls" = "ls".
Proof.
  assert (H1 : load_services (Demo.world true) "/srv/tutor/local/docker-compose.jobs.yml"
               = Some Demo.services) by reflexivity.
  split; [exact H1 |]. split; [reflexivity |].
  exact (run_job_call_determines_job (Demo.world true) Demo.runner "lms" "ls" "lms" "ls"
           Demo.services [] H1 eq_refl).
Defined.

Lemma run_job_absent_alerts (w : World) (self : ScriptRunner) (s cmd : string)
    (services : Services) (tr : Trace) :
  load_services w (pathjoin w (runner_root self) ["local"; "docker-compose.jobs.yml"])
    = Some services →
  services !! (s +:+ "-job") = None →
  alerts (run_job w self s cmd tr).1 =
    alerts tr ++ [deprecation_message (s +:+ "-job")
                    (pathjoin w (runner_root self) ["local"; "docker-compose.jobs.yml"]) cmd].
Proof.
  intros Hload Hout. rewrite (run_job_absent w self s cmd services tr Hload Hout).
  by rewrite docker_compose_alerts, alerts_app.
Qed.

(** X3.  The alert of the fallback names the job service that is missing
    and the file in which it was looked for. *)
Theorem run_job_alert_names_service_and_file (w : World) (self : ScriptRunner)
    (s cmd : string) (services : Services) (tr : Trace) :
  let jobs_path := pathjoin w (runner_root self) ["local"; "docker-compose.jobs.yml"] in
  load_services w jobs_path = Some services →
  services !! (s +:+ "-job") = None →
  ∃ msg, alerts (run_job w self s cmd tr).1 = alerts tr ++ [msg]
         ∧ Str.contains (s +:+ "-job") msg = true
         ∧ Str.contains jobs_path msg = true.
Proof.
  intros jobs_path Hload Hout. eexists. split_and!.
  - by apply (run_job_absent_alerts w self s cmd services tr).
  - unfold deprecation_message. repeat first [ apply contains_here | apply contains_skip ].
  - unfold deprecation_message. fold jobs_path.
    repeat first [ apply contains_here | apply contains_skip ].
Qed.

Lemma run_job_alert_names_service_and_file_witness :
  load_services (Demo.world true) "/srv/tutor/local/docker-compose.jobs.yml"
    = Some Demo.services
  ∧ Demo.services !! "redis-job" = None
  ∧ ∃ msg, alerts (run_job (Demo.world true) Demo.runner "redis" "ls" []).1 = [] ++ [msg]
           ∧ Str.contains "redis-job" msg = true
           ∧ Str.contains "/srv/tutor/local/docker-compose.jobs.yml" msg = true.
Proof.
  assert (H1 : load_services (Demo.world true) "/srv/tutor/local/docker-compose.jobs.yml"
               = Some Demo.services) by reflexivity.
  assert (H2 : Demo.services !! "redis-job" = None) by (by vm_compute).
  split_and!; [exact H1 | exact H2 |].
  exact (run_job_alert_names_service_and_file (Demo.world true) Demo.runner "redis" "ls"
           Demo.services [] H1 H2).
Defined.



(** ** More on [restart] *)

Lemma restart_global (w : World) (root : string) (services : list string) :
  "all" ∈ services →
  restart w root services = docker_compose w root (tutor_config_load w root) ["restart"].
Proof.
  intros Hall. unfold restart. cbv zeta. rewrite decide_True by done.
  unfold mbind, M_bind, lift. done.
Qed.

Lemma restart_selected (w : World) (root : string) (services : list string) (tr : Trace) :
  "all" ∉ services →
  restart w root services tr =
    match restart_loop (tutor_config_load w root) ["restart"] services with
    | inl e => (tr, inl e)
    | inr command => docker_compose w root (tutor_config_load w root) command tr
    end.
Proof.
  intros Hall. unfold restart. cbv zeta. rewrite lift_bind. by rewrite decide_False.
Qed.

(** Without the group name the loop copies the names. *)
Lemma restart_loop_plain (config : Config) (services command : list string) :
  "openedx" ∉ services →
  restart_loop config command services = inr (command ++ services).
Proof.
  revert command. induction services as [|service rest IH]; intros command Hno; simpl.
  - by rewrite (right_id_L [] (++)).
  - apply not_elem_of_cons in Hno as [Hne Hno]. unfold restart_service.
    rewrite decide_False by done. rewrite IH by done.
    by rewrite <- (assoc_L (++)).
Qed.

(** With the group name, what [openedx] raises is what the loop raises. *)
Lemma restart_loop_raises (config : Config) (e : Exn) (services command : list string) :
  (∀ command', restart_service config command' "openedx" = inl e) →
  "openedx" ∈ services →
  restart_loop config command services = inl e.
Proof.
  intros Hraise. revert command.
  induction services as [|service rest IH]; intros command Hin; simpl.
  - by apply elem_of_nil in Hin.
  - destruct (decide (service = "openedx")) as [->|Hne].
    + by rewrite Hraise.
    + apply elem_of_cons in Hin as [Heq|Hin]; [done |].
      unfold restart_service. rewrite decide_False by done. by apply IH.
Qed.

Lemma spec_expand_no_group (run_lms run_cms : bool) (services : list string) :
  "all" ∉ services →
  ("all" ∉ concat (map (spec_expand run_lms run_cms) services))
  ∧ ("openedx" ∉ concat (map (spec_expand run_lms run_cms) services)).
Proof.
  induction services as [|service rest IH]; intros Hall; simpl.
  - split; apply not_elem_of_nil.
  - apply not_elem_of_cons in Hall as [Hne Hall]. destruct (IH Hall) as [IH1 IH2].
    unfold spec_expand at 1 3.
    destruct (decide (service = "openedx")) as [->|Hne'].
    + destruct run_lms, run_cms; simpl; split;
        repeat (apply not_elem_of_cons; split; [done |]); done.
    + simpl. split; apply not_elem_of_cons; split; try done.
      all: by intros ->.
Qed.

(** X5.  When the configuration has the two flags, [restart] never hands
    the group names to the engine: neither [all] nor [openedx] is among the
    operands of the call. *)
Theorem restart_never_forwards_group_names (w : World) (root : string)
    (run_lms run_cms : bool) (services : list string) (tr : Trace) :
  tutor_config_load w root !! "RUN_LMS" = Some run_lms →
  tutor_config_load w root !! "RUN_CMS" = Some run_cms →
  ∃ operands,
    engine_tokens (restart w root services tr).1 = engine_tokens tr ++ ["restart" :: operands]
    ∧ ("all" ∉ operands) ∧ ("openedx" ∉ operands).
Proof.
  intros Hlms Hcms. destruct (decide ("all" ∈ services)) as [Hall|Hall].
  - exists []. rewrite (restart_global w root services Hall).
    split_and!; [apply docker_compose_tokens | apply not_elem_of_nil..].
  - exists (concat (map (spec_expand run_lms run_cms) services)).
    rewrite (restart_selected w root services tr Hall).
    rewrite (restart_loop_expand _ run_lms run_cms) by done.
    split; [apply docker_compose_tokens | by apply spec_expand_no_group].
Qed.

Lemma restart_never_forwards_group_names_witness :
  tutor_config_load (Demo.world true) Demo.root !! "RUN_LMS" = Some true
  ∧ tutor_config_load (Demo.world true) Demo.root !! "RUN_CMS" = Some false
  ∧ ∃ operands,
      engine_tokens (restart (Demo.world true) Demo.root ["openedx"; "caddy"] []).1
        = [] ++ ["restart" :: operands]
      ∧ ("all" ∉ operands) ∧ ("openedx" ∉ operands).
Proof.
  assert (H1 : tutor_config_load (Demo.world true) Demo.root !! "RUN_LMS" = Some true)
    by (vm_compute; reflexivity).
  assert (H2 : tutor_config_load (Demo.world true) Demo.root !! "RUN_CMS" = Some false)
    by (vm_compute; reflexivity).
  split_and!; [exact H1 | exact H2 |].
  exact (restart_never_forwards_group_names (Demo.world true) Demo.root true false
           ["openedx"; "caddy"] [] H1 H2).
Defined.

(** X6.  When [openedx] is requested without [all] and the configuration
    lacks a flag, [restart] raises a [KeyError] for the first flag that is
    missing, and nothing is handed to the engine. *)
Theorem restart_missing_flag (w : World) (root : string) (services : list string)
    (tr : Trace) :
  "all" ∉ services →
  "openedx" ∈ services →
  (tutor_config_load w root !! "RUN_LMS" = None →
   restart w root services tr = (tr, inl (KeyError "RUN_LMS")))
  ∧ (is_Some (tutor_config_load w root !! "RUN_LMS") →
     tutor_config_load w root !! "RUN_CMS" = None →
     restart w root services tr = (tr, inl (KeyError "RUN_CMS"))).
Proof.
  intros Hall Hin. rewrite (restart_selected w root services tr Hall). split.
  - intros Hlms. rewrite (restart_loop_raises _ (KeyError "RUN_LMS")); [done | | done].
    intros command'. unfold restart_service, getitem. by rewrite Hlms.
  - intros [run_lms Hlms] Hcms.
    rewrite (restart_loop_raises _ (KeyError "RUN_CMS")); [done | | done].
    intros command'. unfold restart_service, getitem. by rewrite Hlms, Hcms.
Qed.

(** X7.  When neither [all] nor [openedx] is requested, [restart] hands
    the requested names to the engine as they are, and does not read the
    configuration: any configuration gives the same call. *)
Theorem restart_plain_names (w : World) (root : string) (services : list string)
    (tr : Trace) :
  "all" ∉ services →
  "openedx" ∉ services →
  restart w root services tr =
    docker_compose w root (tutor_config_load w root) ("restart" :: services) tr.
Proof.
  intros Hall Hno. rewrite (restart_selected w root services tr Hall).
  by rewrite restart_loop_plain.
Qed.

Lemma restart_missing_flag_witness :
  ("all" ∉ ["caddy"; "openedx"])
  ∧ "openedx" ∈ ["caddy"; "openedx"]
  ∧ tutor_config_load (Demo.world_with ∅) Demo.root !! "RUN_LMS" = None
  ∧ restart (Demo.world_with ∅) Demo.root ["caddy"; "openedx"] []
      = ([], inl (KeyError "RUN_LMS"))
  ∧ is_Some (tutor_config_load (Demo.world_with {[ "RUN_LMS" := true ]}) Demo.root
               !! "RUN_LMS")
  ∧ tutor_config_load (Demo.world_with {[ "RUN_LMS" := true ]}) Demo.root !! "RUN_CMS" = None
  ∧ restart (Demo.world_with {[ "RUN_LMS" := true ]}) Demo.root ["caddy"; "openedx"] []
      = ([], inl (KeyError "RUN_CMS")).
Proof.
  assert (H1 : "all" ∉ ["caddy"; "openedx"]).
  { intros H. repeat (apply elem_of_cons in H as [H|H]; [discriminate H |]).
    by apply elem_of_nil in H. }
  assert (H2 : "openedx" ∈ ["caddy"; "openedx"]).
  { apply elem_of_cons; right. apply elem_of_cons; left. reflexivity. }
  assert (H3 : tutor_config_load (Demo.world_with ∅) Demo.root !! "RUN_LMS" = None)
    by reflexivity.
  assert (H4 : is_Some (tutor_config_load (Demo.world_with {[ "RUN_LMS" := true ]}) Demo.root
                          !! "RUN_LMS")) by (vm_compute; eauto).
  assert (H5 : tutor_config_load (Demo.world_with {[ "RUN_LMS" := true ]}) Demo.root
                 !! "RUN_CMS" = None) by (by vm_compute).
  split_and!.
  - exact H1.
  - exact H2.
  - exact H3.
  - exact (proj1 (restart_missing_flag (Demo.world_with ∅) Demo.root
                    ["caddy"; "openedx"] [] H1 H2) H3).
  - exact H4.
  - exact H5.
  - exact (proj2 (restart_missing_flag (Demo.world_with {[ "RUN_LMS" := true ]}) Demo.root
                    ["caddy"; "openedx"] [] H1 H2) H4 H5).
Defined.

Lemma restart_plain_names_witness :
  ("all" ∉ ["caddy"; "mysql"])
  ∧ ("openedx" ∉ ["caddy"; "mysql"])
  ∧ engine_tokens (restart (Demo.world_with ∅) Demo.root ["caddy"; "mysql"] []).1
      = [["restart"; "caddy"; "mysql"]].
Proof.
  assert (H1 : "all" ∉ ["caddy"; "mysql"]).
  { intros H. repeat (apply elem_of_cons in H as [H|H]; [discriminate H |]).
    by apply elem_of_nil in H. }
  assert (H2 : "openedx" ∉ ["caddy"; "mysql"]).
  { intros H. repeat (apply elem_of_cons in H as [H|H]; [discriminate H |]).
    by apply elem_of_nil in H. }
  split_and!; [exact H1 | exact H2 |].
  rewrite (restart_plain_names (Demo.world_with ∅) Demo.root ["caddy"; "mysql"] [] H1 H2).
  reflexivity.
Defined.

(** ** More on volumes *)

Lemma resolve_volume_qualified (w : World) (root d : string) :
  Str.has_char ":" d = true → resolve_volume w root d = inr d.
Proof. intros H. unfold resolve_volume. by rewrite H. Qed.

Lemma resolve_volume_returns_qualified (w : World) (root d r : string) :
  resolve_volume w root d = inr r → Str.has_char ":" r = true.
Proof.
  unfold resolve_volume. destruct (Str.has_char ":" d) eqn:Hd; simpl.
  - by intros [= <-].
  - destruct (os_path_exists w (get_path root d)); simpl; [| done].
    intros [= <-]. rewrite has_char_append. apply orb_true_r.
Qed.

Lemma resolve_volume_available (w : World) (root d : string) :
  Str.has_char ":" d = true ∨ os_path_exists w (get_path root d) = true →
  ∃ r, resolve_volume w root d = inr r.
Proof.
  unfold resolve_volume. intros [H|H].
  - rewrite H. eauto.
  - rewrite H. destruct (Str.has_char ":" d); simpl; eauto.
Qed.

Lemma volume_loop_qualified (w : World) (root : string) (vols acc : list string) :
  Forall (λ d, Str.has_char ":" d = true) vols →
  volume_loop w root acc vols = inr (acc ++ volume_pairs vols).
Proof.
  intros Hall. revert acc. induction Hall as [|d vols Hd _ IH]; intros acc; simpl.
  - unfold volume_pairs. simpl. by rewrite (right_id_L [] (++)).
  - rewrite (resolve_volume_qualified w root d Hd), IH.
    unfold volume_pairs. simpl. by rewrite <- (assoc_L (++)).
Qed.

Lemma volume_loop_first_failure (w : World) (root : string)
    (before after acc : list string) (d : string) (e : Exn) :
  Forall (λ v, Str.has_char ":" v = true ∨ os_path_exists w (get_path root v) = true)
    before →
  resolve_volume w root d = inl e →
  volume_loop w root acc (before ++ d :: after) = inl e.
Proof.
  intros Hbefore Hd. revert acc.
  induction Hbefore as [|v before Hv _ IH]; intros acc; simpl.
  - by rewrite Hd.
  - destruct (resolve_volume_available w root v Hv) as [r ->]. apply IH.
Qed.

Lemma parse_volumes_plain (args : list string) :
  Forall plain_token args → parse_volumes args = Some ([], args).
Proof.
  induction 1 as [|token args [Hflag Hglued] _ IH]; [done |].
  by rewrite parse_volumes_cons, Hflag, Hglued, IH.
Qed.

Lemma parse_volumes_pairs (vols others : list string) :
  Forall plain_token others →
  parse_volumes (volume_pairs vols ++ others) = Some (vols, others).
Proof.
  intros Hplain. induction vols as [|d vols IH].
  - by apply parse_volumes_plain.
  - change (volume_pairs (d :: vols) ++ others)
      with ("--volume" :: d :: (volume_pairs vols ++ others)).
    rewrite parse_volumes_cons.
    change (is_volume_flag "--volume") with true. cbv iota. by rewrite IH.
Qed.

(** X8.  Directives that are host-qualified are handed to the engine as
    they are, as [--volume] pairs in their order, and the disk is not looked
    at: the call is the same whatever exists on it. *)
Theorem host_qualified_volumes_verbatim (w : World) (root command : string)
    (args vols others : list string) :
  parse_volumes args = Some (vols, others) →
  Forall (λ d, Str.has_char ":" d = true) vols →
  dc_command w root command args =
    docker_compose w root (tutor_config_load w root)
      (command :: volume_pairs vols ++ others).
Proof.
  intros Hparse Hall.
  apply (dc_command_forwards w root command args vols others); [done |].
  by rewrite volume_loop_qualified.
Qed.

Lemma host_qualified_volumes_verbatim_witness :
  parse_volumes ["--volume=/nowhere:/data"; "lms"; "-v"; "/tmp/x:/x"; "ls"]
    = Some (["/nowhere:/data"; "/tmp/x:/x"], ["lms"; "ls"])
  ∧ Forall (λ d, Str.has_char ":" d = true) ["/nowhere:/data"; "/tmp/x:/x"]
  ∧ engine_tokens
      (dc_command (Demo.world true) Demo.root "run"
         ["--volume=/nowhere:/data"; "lms"; "-v"; "/tmp/x:/x"; "ls"] []).1
    = [["run"; "--volume"; "/nowhere:/data"; "--volume"; "/tmp/x:/x"; "lms"; "ls"]].
Proof.
  assert (H1 : parse_volumes ["--volume=/nowhere:/data"; "lms"; "-v"; "/tmp/x:/x"; "ls"]
               = Some (["/nowhere:/data"; "/tmp/x:/x"], ["lms"; "ls"])) by reflexivity.
  assert (H2 : Forall (λ d, Str.has_char ":" d = true) ["/nowhere:/data"; "/tmp/x:/x"]).
  { repeat constructor. }
  split_and!; [exact H1 | exact H2 |].
  rewrite (host_qualified_volumes_verbatim (Demo.world true) Demo.root "run" _ _ _ H1 H2).
  reflexivity.
Defined.



(** X10.  The error of [dc_command] is that of the first named directive
    whose directory is missing: when all directives in front of it resolve,
    the message names its path, whatever comes behind it. *)
Theorem first_missing_volume_reported (w : World) (root command : string)
    (args before after others : list string) (d : string) (tr : Trace) :
  parse_volumes args = Some (before ++ d :: after, others) →
  Forall (λ v, Str.has_char ":" v = true ∨ os_path_exists w (get_path root v) = true)
    before →
  Str.has_char ":" d = false →
  os_path_exists w (get_path root d) = false →
  dc_command w root command args tr =
    (tr, inl (TutorError ("Bind-mount volume directory " +:+ get_path root d
                          +:+ " does not exist. It must first be created"
                          +:+ " with the 'bindmount' command."))).
Proof.
  intros Hparse Hbefore Hnamed Hmissing.
  apply (dc_command_propagates w root command args (before ++ d :: after) others);
    [done |].
  apply volume_loop_first_failure; [done |].
  unfold resolve_volume. by rewrite Hnamed, Hmissing.
Qed.

Lemma first_missing_volume_reported_witness :
  parse_volumes ["-v"; "data"; "-v"; "cache"; "-v"; "logs"; "lms"]
    = Some (["data"] ++ "cache" :: ["logs"], ["lms"])
  ∧ Forall (λ v, Str.has_char ":" v = true
                 ∨ os_path_exists (Demo.world true) (get_path Demo.root v) = true) ["data"]
  ∧ Str.has_char ":" "cache" = false
  ∧ os_path_exists (Demo.world true) (get_path Demo.root "cache") = false
  ∧ dc_command (Demo.world true) Demo.root "run"
      ["-v"; "data"; "-v"; "cache"; "-v"; "logs"; "lms"] [] =
      ([], inl (TutorError "Bind-mount volume directory /srv/tutor/volumes/cache does not exist. It must first be created with the 'bindmount' command.")).
Proof.
  assert (H1 : parse_volumes ["-v"; "data"; "-v"; "cache"; "-v"; "logs"; "lms"]
               = Some (["data"] ++ "cache" :: ["logs"], ["lms"])) by reflexivity.
  assert (H2 : Forall (λ v, Str.has_char ":" v = true
                            ∨ os_path_exists (Demo.world true) (get_path Demo.root v) = true)
                 ["data"]).
  { constructor; [right; reflexivity | constructor]. }
  assert (H3 : Str.has_char ":" "cache" = false) by reflexivity.
  assert (H4 : os_path_exists (Demo.world true) (get_path Demo.root "cache") = false)
    by reflexivity.
  split_and!; [exact H1 | exact H2 | exact H3 | exact H4 |].
  exact (first_missing_volume_reported (Demo.world true) Demo.root "run"
           ["-v"; "data"; "-v"; "cache"; "-v"; "logs"; "lms"] ["data"] ["logs"] ["lms"]
           "cache" [] H1 H2 H3 H4).
Defined.

(** X11.  An argument list that is not empty and has no volume flag is
    handed to the engine as it is, behind the subcommand. *)
Theorem dc_command_forwards_plain_arguments (w : World) (root command : string)
    (args : list string) :
  args ≠ [] →
  Forall plain_token args →
  dc_command w root command args =
    docker_compose w root (tutor_config_load w root) (command :: args).
Proof.
  intros _ Hplain.
  by apply (dc_command_forwards w root command args [] args []);
    [apply parse_volumes_plain |].
Qed.

Lemma dc_command_forwards_plain_arguments_witness :
  ["ps"; "--all"; "-q"] ≠ []
  ∧ Forall plain_token ["ps"; "--all"; "-q"]
  ∧ engine_tokens (dc_command (Demo.world true) Demo.root "ps-wrapper"
                     ["ps"; "--all"; "-q"] []).1
    = [["ps-wrapper"; "ps"; "--all"; "-q"]].
Proof.
  assert (H : Forall plain_token ["ps"; "--all"; "-q"]).
  { repeat constructor. }
  assert (H0 : ["ps"; "--all"; "-q"] ≠ []) by discriminate.
  split_and!; [exact H0 | exact H |].
  rewrite (dc_command_forwards_plain_arguments (Demo.world true) Demo.root "ps-wrapper"
             ["ps"; "--all"; "-q"] H0 H).
  reflexivity.
Defined.

(** X12.  The token sequence that [dc_command] assembles is a normal form:
    given again as an argument list, it leads to the same call. *)
Theorem dc_command_normal_form (w : World) (root command : string)
    (args vols others volume_args : list string) :
  parse_volumes args = Some (vols, others) →
  volume_loop w root [] vols = inr volume_args →
  dc_command w root command (volume_args ++ others) = dc_command w root command args.
Proof.
  intros Hparse Hloop.
  rewrite (dc_command_forwards w root command args vols others volume_args Hparse Hloop).
  destruct (volume_loop_returns w root vols [] volume_args Hloop) as (resolved & Hall & ->).
  simpl.
  apply (dc_command_forwards w root command _ resolved others).
  - apply parse_volumes_pairs.
    by apply (parse_volumes_others_plain args vols others).
  - rewrite volume_loop_qualified; [done |].
    clear Hloop Hparse. induction Hall as [|d r ? ? Hd _ IH]; constructor; [| done].
    by eapply resolve_volume_returns_qualified.
Qed.

Lemma dc_command_normal_form_witness :
  parse_volumes ["lms"; "-v"; "data"; "ls"] = Some (["data"], ["lms"; "ls"])
  ∧ volume_loop (Demo.world true) Demo.root [] ["data"]
      = inr ["--volume"; "/srv/tutor/volumes/data:data"]
  ∧ dc_command (Demo.world true) Demo.root "run"
      (["--volume"; "/srv/tutor/volumes/data:data"] ++ ["lms"; "ls"])
    = dc_command (Demo.world true) Demo.root "run" ["lms"; "-v"; "data"; "ls"].
Proof.
  assert (H1 : parse_volumes ["lms"; "-v"; "data"; "ls"] = Some (["data"], ["lms"; "ls"]))
    by reflexivity.
  assert (H2 : volume_loop (Demo.world true) Demo.root [] ["data"]
               = inr ["--volume"; "/srv/tutor/volumes/data:data"]) by reflexivity.
  split_and!; [exact H1 | exact H2 |].
  exact (dc_command_normal_form (Demo.world true) Demo.root "run"
           ["lms"; "-v"; "data"; "ls"] ["data"] ["lms"; "ls"]
           ["--volume"; "/srv/tutor/volumes/data:data"] H1 H2).
Defined.

(** ** More on the commands that run jobs *)

Lemma run_job_present_alerts (w : World) (self : ScriptRunner) (s cmd : string)
    (services : Services) (tr : Trace) :
  load_services w (pathjoin w (runner_root self) ["local"; "docker-compose.jobs.yml"])
    = Some services →
  is_Some (services !! (s +:+ "-job")) →
  alerts (run_job w self s cmd tr).1 = alerts tr.
Proof.
  intros Hload Hin. rewrite (run_job_present w self s cmd services Hload Hin).
  apply docker_compose_alerts.
Qed.

(** X13.  [createuser] hands the engine exactly one call, for the command
    that [create_user_command] builds, in the service [lms-job] of the job
    definition under the root, or in [lms] when the definition has no
    [lms-job]; with [lms-job] no alert is shown.  The engine is called with
    the configuration loaded from the root. *)
Theorem createuser_runs_in_lms (w : World) (root : string) (superuser staff : bool)
    (password : option string) (name email : string) (services : Services) (tr : Trace) :
  let jobs_path := pathjoin w root ["local"; "docker-compose.jobs.yml"] in
  let command := create_user_command w superuser staff name email password in
  let opts := if is_a_tty w then [] else ["-T"] in
  load_services w jobs_path = Some services →
  engine_tokens (createuser w root superuser staff password name email tr).1 =
    engine_tokens tr ++
      [if decide (is_Some (services !! "lms-job"))
       then ["-f"; jobs_path; "run"] ++ opts ++ ["--rm"; "lms-job"; "sh"; "-e"; "-c"; command]
       else ["run"] ++ opts ++ ["--rm"; "lms"; "sh"; "-e"; "-c"; command]]
  ∧ engine_calls (createuser w root superuser staff password name email tr).1
      = engine_calls tr + 1
  ∧ (is_Some (services !! "lms-job") →
     alerts (createuser w root superuser staff password name email tr).1 = alerts tr)
  ∧ Forall (λ ev, match ev with
                  | EngineCall r c _ => r = root ∧ c = tutor_config_load w root
                  | _ => True
                  end)
      (drop (length tr) (createuser w root superuser staff password name email tr).1).
Proof.
  intros jobs_path command opts Hload. unfold createuser. cbv zeta.
  set (runner := {| runner_root := root; runner_config := tutor_config_load w root |}).
  fold command.
  split_and!.
  - apply (run_job_tokens w runner "lms" command services tr Hload).
  - apply (run_job_calls w runner "lms" command services tr Hload).
  - intros Hin. apply (run_job_present_alerts w runner "lms" command services tr Hload Hin).
  - destruct (services !! "lms-job") as [spec|] eqn:E.
    + rewrite (run_job_present w runner "lms" command services Hload);
        [| change ("lms" +:+ "-job") with "lms-job"; rewrite E; eauto].
      rewrite docker_compose_run. simpl. rewrite drop_app_length.
      repeat constructor.
    + rewrite (run_job_absent w runner "lms" command services tr Hload E).
      rewrite docker_compose_run. simpl.
      rewrite <- (assoc_L (++)), drop_app_length.
      repeat constructor.
Qed.

Lemma createuser_runs_in_lms_witness :
  load_services (Demo.world true) "/srv/tutor/local/docker-compose.jobs.yml"
    = Some Demo.services
  ∧ engine_tokens
      (createuser (Demo.world true) Demo.root true false None "ada" "ada@example.com" []).1
    = [["-f"; "/srv/tutor/local/docker-compose.jobs.yml"; "run"; "--rm"; "lms-job";
        "sh"; "-e"; "-c"; "./manage.py lms manage_user ada ada@example.com"]].
Proof.
  assert (H : load_services (Demo.world true) "/srv/tutor/local/docker-compose.jobs.yml"
              = Some Demo.services) by reflexivity.
  split; [exact H |].
  rewrite (proj1 (createuser_runs_in_lms (Demo.world true) Demo.root true false None
                    "ada" "ada@example.com" Demo.services [] H)).
  vm_compute. reflexivity.
Defined.

Lemma settheme_loop_app (w : World) (theme_name : string) (runner : ScriptRunner)
    (domains1 domains2 : list string) (tr : Trace) :
  settheme_loop w theme_name runner (domains1 ++ domains2) tr =
    (settheme_loop w theme_name runner domains1 ;;
     settheme_loop w theme_name runner domains2) tr.
Proof.
  revert tr. induction domains1 as [|domain_name rest IH]; intros tr; simpl.
  - done.
  - unfold mbind, M_bind in IH |- *.
    destruct (set_theme w theme_name domain_name runner tr) as [tr1 [e|[]]]; [done |].
    apply IH.
Qed.

(** X14.  [settheme] on a list of domain names is [settheme] on its front
    and then [settheme] on its back: the domains are served in order, and
    when one fails those behind it are not served. *)
Theorem settheme_serves_domains_in_order (w : World) (root theme_name : string)
    (domains1 domains2 : list string) (tr : Trace) :
  settheme w root theme_name (domains1 ++ domains2) tr =
    (settheme w root theme_name domains1 ;; settheme w root theme_name domains2) tr
  ∧ (∀ tr1 e, settheme w root theme_name domains1 tr = (tr1, inl e) →
              settheme w root theme_name (domains1 ++ domains2) tr = (tr1, inl e)).
Proof.
  unfold settheme. cbv zeta. split.
  - apply settheme_loop_app.
  - intros tr1 e H. rewrite settheme_loop_app. unfold mbind, M_bind. by rewrite H.
Qed.

Lemma settheme_serves_domains_in_order_witness :
  settheme (Demo.world true) "/home/me" "indigo" ["a.example.com"] []
    = ([], inl (DefinitionParseError "/home/me/local/docker-compose.jobs.yml"))
  ∧ settheme (Demo.world true) "/home/me" "indigo" (["a.example.com"] ++ ["b.example.com"]) []
    = ([], inl (DefinitionParseError "/home/me/local/docker-compose.jobs.yml")).
Proof.
  assert (H : settheme (Demo.world true) "/home/me" "indigo" ["a.example.com"] []
              = ([], inl (DefinitionParseError "/home/me/local/docker-compose.jobs.yml")))
    by reflexivity.
  split; [exact H |].
  exact (proj2 (settheme_serves_domains_in_order (Demo.world true) "/home/me" "indigo"
                  ["a.example.com"] ["b.example.com"] []) _ _ H).
Defined.

(** ** More on [logs] *)

Lemma is_digit_pretty_N_char (x : N) : is_digit (pretty_N_char x) = true.
Proof. unfold pretty_N_char. by repeat case_match. Qed.

Lemma digit_head_pretty_N_go (x : N) (s : string) :
  digit_head s = true → digit_head (pretty_N_go x s) = true.
Proof.
  revert s. induction (N.lt_wf_0 x) as [x _ IH]; intros s Hs.
  destruct (decide (x = 0%N)) as [->|Hx]; [by rewrite pretty_N_go_0 |].
  rewrite pretty_N_go_step by lia. apply IH.
  - apply N.div_lt; lia.
  - apply is_digit_pretty_N_char.
Qed.

Lemma digit_head_pretty_N (x : N) : digit_head (pretty x) = true.
Proof.
  unfold pretty, pretty_N. case_decide; [done |].
  rewrite pretty_N_go_step by lia. apply digit_head_pretty_N_go, is_digit_pretty_N_char.
Qed.

(** A text that starts with a digit, with or without a minus sign in front,
    is no volume flag. *)
Lemma digit_head_plain (s : string) : digit_head s = true → plain_token s.
Proof.
  intros Hs. split.
  - unfold is_volume_flag.
    rewrite !bool_decide_eq_false_2; [done | by intros -> ..].
  - destruct s as [|a s]; [done |].
    change (Str.startswith "--volume=" (String a s))
      with (if Ascii.eqb "-" a then Str.startswith "-volume=" s else false).
    destruct (Ascii.eqb "-" a) eqn:E; [| done].
    apply Ascii.eqb_eq in E as <-. done.
Qed.

Lemma minus_digit_head_plain (s : string) : digit_head s = true → plain_token ("-" +:+ s).
Proof.
  intros Hs. split.
  - unfold is_volume_flag.
    rewrite !bool_decide_eq_false_2;
      [done | intros H; change ("-" +:+ s) with (String "-" s) in H; by simplify_eq ..].
  - destruct s as [|a s]; [done |].
    change (Str.startswith "--volume=" ("-" +:+ String a s))
      with (if Ascii.eqb "-" a then Str.startswith "volume=" s else false).
    destruct (Ascii.eqb "-" a) eqn:E; [| done].
    apply Ascii.eqb_eq in E as <-. done.
Qed.

(** A number in decimal is no volume flag. *)
Lemma pretty_Z_plain (n : Z) : plain_token (pretty n).
Proof.
  destruct n as [|p|p].
  - by apply digit_head_plain.
  - apply digit_head_plain. apply (digit_head_pretty_N (Npos p)).
  - apply minus_digit_head_plain. apply (digit_head_pretty_N (Npos p)).
Qed.

(** X15.  [logs] hands the engine [logs], then [--follow] when asked to
    follow, then [--tail] and the number when one is given, whatever the
    number, zero and negative ones too, then the service names as they are,
    when these are no volume flags and there is something to hand over. *)
Theorem logs_forwards_its_options (w : World) (root : string) (follow : bool)
    (tail : option Z) (service : list string) :
  follow = true ∨ is_Some tail ∨ service ≠ [] →
  Forall plain_token service →
  logs w root follow tail service =
    docker_compose w root (tutor_config_load w root)
      ("logs" :: (if follow then ["--follow"] else [])
              ++ match tail with Some n => ["--tail"; pretty n] | None => [] end
              ++ service).
Proof.
  intros _ Hplain. unfold logs. cbv zeta.
  assert (plain_token "--follow") as Hfollow by done.
  assert (plain_token "--tail") as Htail by done.
  destruct follow, tail as [n|]; simpl;
    apply (dc_command_forwards w root "logs" _ [] _ []); try done;
    apply parse_volumes_plain; repeat (constructor; [done || apply pretty_Z_plain |]);
    done.
Qed.

Lemma logs_forwards_its_options_witness :
  (true = true ∨ is_Some (Some 0%Z) ∨ ["lms"; "cms"] ≠ [])
  ∧ Forall plain_token ["lms"; "cms"]
  ∧ engine_tokens (logs (Demo.world true) Demo.root true (Some 0%Z) ["lms"; "cms"] []).1
    = [["logs"; "--follow"; "--tail"; "0"; "lms"; "cms"]].
Proof.
  assert (H1 : true = true ∨ is_Some (Some 0%Z) ∨ ["lms"; "cms"] ≠ [])
    by (left; reflexivity).
  assert (H2 : Forall plain_token ["lms"; "cms"]) by (repeat constructor).
  split_and!; [exact H1 | exact H2 |].
  rewrite (logs_forwards_its_options (Demo.world true) Demo.root true (Some 0%Z)
             ["lms"; "cms"] H1 H2).
  reflexivity.
Defined.

(** ** What the commands never do *)

Lemma lift_alerts {A : Type} (r : Exn + A) (tr : Trace) : alerts (lift r tr).1 = alerts tr.
Proof. done. Qed.

Lemma dc_command_alerts (w : World) (root command : string) (args : list string)
    (tr : Trace) :
  alerts (dc_command w root command args tr).1 = alerts tr.
Proof.
  destruct (parse_volumes args) as [[vols others]|] eqn:Hparse.
  - destruct (volume_loop w root [] vols) as [e|volume_args] eqn:Hloop.
    + by rewrite (dc_command_propagates w root command args vols others e tr).
    + rewrite (dc_command_forwards w root command args vols others volume_args) by done.
      apply docker_compose_alerts.
  - unfold dc_command. cbv zeta. by rewrite Hparse.
Qed.

Lemma restart_alerts (w : World) (root : string) (services : list string) (tr : Trace) :
  alerts (restart w root services tr).1 = alerts tr.
Proof.
  unfold restart. cbv zeta. rewrite lift_bind.
  destruct (if decide ("all" ∈ services) then _ else _) as [e|command]; [done |].
  apply docker_compose_alerts.
Qed.

Lemma reboot_alerts (w : World) (root : string) (detach : bool) (services : list string)
    (tr : Trace) :
  alerts (reboot w root detach services tr).1 = alerts tr.
Proof.
  unfold reboot, mbind, M_bind.
  pose proof (docker_compose_alerts w root (tutor_config_load w root)
                ("stop" :: services) tr) as Hstop.
  unfold stop. cbv zeta.
  destruct (docker_compose w root (tutor_config_load w root) ("stop" :: services) tr)
    as [tr1 [e|[]]]; simpl in Hstop; [done |].
  unfold start. cbv zeta. by rewrite docker_compose_alerts.
Qed.

(** X16.  The commands that do not go through the job runner never show
    an alert, whether they complete or raise. *)
Theorem only_jobs_show_alerts (w : World) (root : string) (c : Command) (tr : Trace) :
  runs_jobs c = false →
  alerts (issue w root c tr).1 = alerts tr.
Proof.
  destruct c; simpl; intros Hc; try discriminate Hc.
  - apply docker_compose_alerts.
  - apply docker_compose_alerts.
  - apply restart_alerts.
  - apply reboot_alerts.
  - apply dc_command_alerts.
  - apply dc_command_alerts.
  - apply dc_command_alerts.
  - apply dc_command_alerts.
Qed.

Lemma only_jobs_show_alerts_witness :
  runs_jobs (Run ["-v"; "cache"; "lms"; "ls"]) = false
  ∧ alerts (issue (Demo.world false) Demo.root (Run ["-v"; "cache"; "lms"; "ls"]) []).1
    = alerts [].
Proof.
  assert (H : runs_jobs (Run ["-v"; "cache"; "lms"; "ls"]) = false) by reflexivity.
  split; [exact H |].
  exact (only_jobs_show_alerts (Demo.world false) Demo.root
           (Run ["-v"; "cache"; "lms"; "ls"]) [] H).
Defined.

Lemma run_job_at_most (w : World) (self : ScriptRunner) (s cmd : string) (tr : Trace) :
  engine_calls (run_job w self s cmd tr).1 ≤ engine_calls tr + 1.
Proof.
  destruct (load_services w (pathjoin w (runner_root self) ["local"; "docker-compose.jobs.yml"]))
    as [services|] eqn:Hload.
  - rewrite (run_job_calls w self s cmd services tr Hload). lia.
  - unfold run_job, read_services. rewrite Hload. simpl. lia.
Qed.

Lemma run_jobs_at_most (w : World) (runner : ScriptRunner) (jobs : list (string * string))
    (tr : Trace) :
  engine_calls (run_jobs w runner jobs tr).1 ≤ engine_calls tr + length jobs.
Proof.
  revert tr. induction jobs as [|[service command] rest IH]; intros tr; simpl; [lia |].
  unfold mbind, M_bind.
  pose proof (run_job_at_most w runner service command tr) as Hjob.
  destruct (run_job w runner service command tr) as [tr1 [e|[]]]; simpl in *; [lia |].
  specialize (IH tr1). lia.
Qed.

Lemma settheme_loop_at_most (w : World) (theme_name : string) (runner : ScriptRunner)
    (domain_names : list string) (tr : Trace) :
  engine_calls (settheme_loop w theme_name runner domain_names tr).1 ≤
    engine_calls tr + length (concat (map (set_theme_jobs w theme_name) domain_names)).
Proof.
  revert tr. induction domain_names as [|domain_name rest IH]; intros tr; simpl; [lia |].
  unfold mbind, M_bind, set_theme.
  pose proof (run_jobs_at_most w runner (set_theme_jobs w theme_name domain_name) tr) as Hone.
  destruct (run_jobs w runner (set_theme_jobs w theme_name domain_name) tr)
    as [tr1 [e|[]]]; simpl in *; rewrite length_app; [lia |].
  specialize (IH tr1). lia.
Qed.

Lemma dc_command_at_most (w : World) (root command : string) (args : list string)
    (tr : Trace) :
  engine_calls (dc_command w root command args tr).1 ≤ engine_calls tr + 1.
Proof.
  destruct (parse_volumes args) as [[vols others]|] eqn:Hparse.
  - destruct (volume_loop w root [] vols) as [e|volume_args] eqn:Hloop.
    + rewrite (dc_command_propagates w root command args vols others e tr) by done.
      simpl. lia.
    + rewrite (dc_command_forwards w root command args vols others volume_args) by done.
      rewrite docker_compose_calls. lia.
  - unfold dc_command. cbv zeta. rewrite Hparse. simpl. lia.
Qed.

(** X17.  A command never hands the engine more calls than it does when it
    completes, also when it raises on the way: at most two for [reboot], at
    most one per job for [settheme], at most one for the others. *)
Theorem engine_calls_at_most (w : World) (root : string) (c : Command) (tr : Trace) :
  engine_calls (issue w root c tr).1 ≤ engine_calls tr + expected_calls w c.
Proof.
  destruct c; cbn [issue expected_calls].
  - unfold start. cbv zeta. rewrite docker_compose_calls. lia.
  - unfold stop. cbv zeta. rewrite docker_compose_calls. lia.
  - unfold restart. cbv zeta. rewrite lift_bind.
    destruct (if decide ("all" ∈ services) then _ else _) as [e|command]; [simpl; lia |].
    rewrite docker_compose_calls. lia.
  - unfold reboot, mbind, M_bind.
    pose proof (docker_compose_calls w root (tutor_config_load w root)
                  ("stop" :: services) tr) as Hstop.
    unfold stop. cbv zeta.
    destruct (docker_compose w root (tutor_config_load w root) ("stop" :: services) tr)
      as [tr1 [e|[]]]; simpl in Hstop; [simpl; lia |].
    unfold start. cbv zeta. rewrite docker_compose_calls. lia.
  - apply run_job_at_most.
  - apply settheme_loop_at_most.
  - apply dc_command_at_most.
  - apply dc_command_at_most.
  - apply dc_command_at_most.
  - apply dc_command_at_most.
Qed.
